(** * Game of Life: the bordered board, its cells and the generation step

    A shallow embedding of [Life.h] (class template [Life<T>] and the cell
    classes [AbstractCell], [ConwayCell], [FredkinCell], [Cell]) together
    with the properties the specification states about them.

    The sources hold three revisions of [Life.h].  The definitions follow
    the latest one (constructor with explicit dimensions, [evolve_all],
    [at], the iterator, [print]); [Life_ctor_inferred] and
    [evolve_all_checked] are the constructor and the step of the middle
    one.  The oldest revision, whose cell classes have no constructor from
    [bool] and whose [Life] stores [Cell]s and sets neither [generation]
    nor [population], is not embedded.  Life.c++, with the bodies of the
    cell rules, of the constructors from a character and of the queries of
    [Cell], is not among the sources: [Life<T>] is embedded over an
    interface [CellLike] whose operations stand for them.

    Conventions of the embedding.
    - C++ [int] values (coordinates, dimensions, counters) are integers of
      [Z]; signed overflow is undefined behaviour in C++ and lies outside
      the model, except in [Life_at], which evaluates the index expression
      of [at] in [int] for arbitrary coordinates.
    - [at(x, y).~T(); at(x, y) = new_cell;]: when [~T] is not trivial, as
      for the three cell classes, the explicit destructor call ends the
      lifetime of the element and the assignment that follows is
      undefined.  [evolve_cell_lifetime] and [evolve_cell_checked] follow
      this.  [evolve_cell] and [read_cells] take the two statements as the
      assignment alone, which is their behaviour for a cell type with a
      trivial destructor.
    - [std::vector<T>] is a [list T]; [vector::at] is bounds checked and
      throws, [vector::operator[]] is unchecked.  Both are fallible here.
    - A function that may throw, abort on a failed [assert], or run into
      undefined behaviour returns a [result]. *)

From Stdlib Require Import ZArith Ascii String List Lia.
From stdpp Require Import base tactics numbers option list strings pretty.

Open Scope Z_scope.

(** ** Failures *)

Inductive error : Type :=
  | OutOfRange          (* std::out_of_range thrown by vector::at *)
  | LengthError         (* vector::resize with a count that is not a size *)
  | AssertionFailed     (* a failed assert: the process aborts *)
  | UndefinedBehaviour  (* unchecked access outside the storage *)
  | InvalidCharacter.   (* the cell constructor rejects the character *)

Inductive result (A : Type) : Type :=
  | Ok (a : A)
  | Error (e : error).
Arguments Ok {A} a.
Arguments Error {A} e.

#[global] Instance result_ret : MRet result := λ A a, Ok a.
#[global] Instance result_bind : MBind result := λ A B f m,
  match m with
  | Ok a => f a
  | Error e => Error e
  end.

Definition fails {A} (r : result A) : Prop := ∃ e, r = Error e.

(** A counted loop [for (int i = 0; i < n; i++) body] whose body neither
    changes [i] nor [n] runs the body on [0, 1, ..., n-1] in that order,
    threading the state and stopping at the first failure. *)
Fixpoint for_each {S : Type} (idx : list Z) (body : Z → S → result S) (s : S)
  : result S :=
  match idx with
  | [] => Ok s
  | i :: idx' => s' ← body i s; for_each idx' body s'
  end.

(** ** std::vector accesses *)

Section Vector.
Context {A : Type}.

(** [v.at(i)] read through the returned reference.  The [int] index is
    converted to the unsigned [size_type]: a negative index becomes a
    huge one and is out of range like any index past the end. *)
Definition vec_at (v : list A) (i : Z) : result A :=
  if bool_decide (0 ≤ i) then
    match v !! Z.to_nat i with
    | Some a => Ok a
    | None => Error OutOfRange
    end
  else Error OutOfRange.

(** [v.at(i) = a]: assignment through the returned reference. *)
Definition vec_at_put (v : list A) (i : Z) (a : A) : result (list A) :=
  if bool_decide (0 ≤ i < Z.of_nat (length v)) then Ok (<[Z.to_nat i := a]> v)
  else Error OutOfRange.

(** [v[i]]: no check; outside the storage the behaviour is undefined. *)
Definition vec_index (v : list A) (i : Z) : result A :=
  if bool_decide (0 ≤ i) then
    match v !! Z.to_nat i with
    | Some a => Ok a
    | None => Error UndefinedBehaviour
    end
  else Error UndefinedBehaviour.

(** [v.resize(n, a)] on an empty vector. *)
Definition vec_resize (n : Z) (a : A) : result (list A) :=
  if bool_decide (0 ≤ n) then Ok (replicate (Z.to_nat n) a)
  else Error LengthError.
End Vector.

(** ** The interface [Life<T>] needs from its cell type [T] *)

Class CellLike (T : Type) : Type := {
  of_border : bool → T;            (* T(bool border_) *)
  of_char : ascii → result T;      (* T(const char&) *)
  is_alive : T → bool;             (* is_alive() *)
  is_border : T → bool;            (* is_border() *)
  plus : T → list T → T            (* operator+(cell, neighbors[8]) *)
}.

Definition newline : ascii := "010"%char.

(** ** class Life<T> *)

Record Life (T : Type) : Type := mkLife {
  height : Z;
  width : Z;
  board : list T;
  generation : Z;
  population : Z
}.
Arguments mkLife {T}.
Arguments height {T}.
Arguments width {T}.
Arguments board {T}.
Arguments generation {T}.
Arguments population {T}.

(** Index of interior coordinate [(x, y)] in the padded row-major storage of
    a board [w] cells wide, as [Life::at] computes it. *)
Definition phys (w x y : Z) : Z := (x + 1) * (w + 2) + y + 1.

(** The eight indices read by [evolve_all] around [(x, y)], in the order of
    the array initialiser. *)
Definition neighbor_indices (w x y : Z) : list Z :=
  [ (x + 1) * (w + 2) + y;
    (x + 2) * (w + 2) + y + 1;
    (x + 1) * (w + 2) + y + 2;
    x * (w + 2) + y + 1;
    (x + 2) * (w + 2) + y;
    (x + 2) * (w + 2) + y + 2;
    x * (w + 2) + y + 2;
    x * (w + 2) + y ].

(** ** Arithmetic on [int]

    [int] is taken 32 bits wide.  An operation whose result does not fit
    has undefined behaviour. *)
Definition INT_MIN : Z := -2147483648.
Definition INT_MAX : Z := 2147483647.

Definition in_int (z : Z) : Prop := INT_MIN ≤ z ≤ INT_MAX.

Definition int_result (z : Z) : result Z :=
  if bool_decide (INT_MIN ≤ z ≤ INT_MAX) then Ok z else Error UndefinedBehaviour.

Definition int_add (a b : Z) : result Z := int_result (a + b).
Definition int_mul (a b : Z) : result Z := int_result (a * b).

(** [(x + 1) * (width + 2) + y + 1], the index expression of [Life::at],
    evaluated in [int] from left to right. *)
Definition at_index (w x y : Z) : result Z :=
  a ← int_add x 1;
  b ← int_add w 2;
  c ← int_mul a b;
  d ← int_add c y;
  int_add d 1.

Section Life.
Context {T : Type} `{CellLike T}.

Definition set_population (l : Life T) (p : Z) : Life T :=
  mkLife (height l) (width l) (board l) (generation l) p.
Definition set_generation (l : Life T) (g : Z) : Life T :=
  mkLife (height l) (width l) (board l) g (population l).
Definition set_board (l : Life T) (b : list T) : Life T :=
  mkLife (height l) (width l) b (generation l) (population l).

(** [at(x, y)], read through the reference it returns.  The index is
    computed in [Z]: it is the index of the code as long as the [int]
    arithmetic of [at_index] does not overflow, which is so at every
    coordinate the loops of the class reach. *)
Definition at_get (l : Life T) (x y : Z) : result T :=
  vec_at (board l) (phys (width l) x y).

(** [at(x, y)] at arbitrary [int] coordinates, read through the reference
    it returns: the index is computed in [int], then checked by
    [vector::at]. *)
Definition Life_at (l : Life T) (x y : Z) : result T :=
  i ← at_index (width l) x y;
  vec_at (board l) i.

(** [at(x, y) = c]. *)
Definition at_put (l : Life T) (x y : Z) (c : T) : result (Life T) :=
  b ← vec_at_put (board l) (phys (width l) x y) c;
  Ok (set_board l b).

(** [if (c.is_alive()) population++]. *)
Definition count_if_alive (c : T) (l : Life T) : Life T :=
  if is_alive c then set_population l (population l + 1) else l.

(** *** Life(std::istream& in, int h, int w)

    The stream is the list of characters still to be read; [in.get()] on
    the empty list is [EOF].  The reading loop carries [x] and [y].
    [at(x, y).~T(); at(x, y) = new_cell;] is taken as the assignment after
    a checked access. *)
Fixpoint read_cells (inp : list ascii) (l : Life T) (x y : Z)
  : result (Life T * Z) :=
  match inp with
  | [] => Ok (l, x)
  | c :: rest =>
    if bool_decide (c = newline) then
      if bool_decide (y = 0) then Ok (l, x)
      else
        if bool_decide (y = width l) then read_cells rest l (x + 1) 0
        else Error AssertionFailed
    else
      new_cell ← of_char c;
      let l := count_if_alive new_cell l in
      _ ← at_get l x y;
      l ← at_put l x y new_cell;
      read_cells rest l x (y + 1)
  end.

Definition Life_ctor (inp : list ascii) (h w : Z) : result (Life T) :=
  b ← vec_resize ((w + 2) * (h + 2)) (of_border true);
  r ← read_cells inp (mkLife h w b 0 0) 0 0;
  if bool_decide (r.2 = height r.1) then Ok r.1 else Error AssertionFailed.

(** *** evolve_all() *)
Definition read_neighbors (temp_board : list T) (w x y : Z) : result (list T) :=
  n0 ← vec_index temp_board ((x + 1) * (w + 2) + y);
  n1 ← vec_index temp_board ((x + 2) * (w + 2) + y + 1);
  n2 ← vec_index temp_board ((x + 1) * (w + 2) + y + 2);
  n3 ← vec_index temp_board (x * (w + 2) + y + 1);
  n4 ← vec_index temp_board ((x + 2) * (w + 2) + y);
  n5 ← vec_index temp_board ((x + 2) * (w + 2) + y + 2);
  n6 ← vec_index temp_board (x * (w + 2) + y + 2);
  n7 ← vec_index temp_board (x * (w + 2) + y);
  Ok [n0; n1; n2; n3; n4; n5; n6; n7].

(** The loop body, with [at(x, y).~T(); at(x, y) = new_cell;] taken as the
    assignment after a checked access: the body for a cell type with a
    trivial destructor.  [evolve_cell_lifetime] has the destructor call. *)
Definition evolve_cell (temp_board : list T) (x y : Z) (l : Life T)
  : result (Life T) :=
  cell ← at_get l x y;
  neighbors ← read_neighbors temp_board (width l) x y;
  let new_cell := plus cell neighbors in
  let l := count_if_alive new_cell l in
  _ ← at_get l x y;
  at_put l x y new_cell.

Definition evolve_all (l : Life T) : result (Life T) :=
  let l0 := set_population l 0 in
  let temp_board := board l0 in
  l1 ← for_each (seqZ 0 (height l0))
         (λ x l, for_each (seqZ 0 (width l))
                   (λ y l, evolve_cell temp_board x y l) l) l0;
  Ok (set_generation l1 (generation l1 + 1)).

(** [n] calls of [evolve_all]. *)
Fixpoint evolve_n (n : nat) (l : Life T) : result (Life T) :=
  match n with
  | O => Ok l
  | S n' => l' ← evolve_all l; evolve_n n' l'
  end.

(** *** Life(std::istream& in) of the middle revision

    Dimensions are inferred while reading; the side borders are pushed as
    the lines are scanned, the bottom and top rows afterwards.  Every
    border cell is a temporary [T(true)] of its own, and
    [AbstractCell(bool)] leaves [alive] indeterminate: [border_temp k] is
    the value of the [k]-th temporary constructed, and [temporaries]
    counts them. *)
Section Inferred.
Variable border_temp : nat → T.

Record scan_state : Type := mkScan {
  last_char_was_newline : bool;
  scan_width : Z;
  scan_height : Z;
  scan_population : Z;
  temp_board : list T;
  temporaries : nat
}.

(** [temp_board.push_back(T(true))]. *)
Definition push_border (s : scan_state) : scan_state :=
  mkScan (last_char_was_newline s) (scan_width s) (scan_height s)
    (scan_population s) (temp_board s ++ [border_temp (temporaries s)])
    (S (temporaries s)).

(** The end of a line: [++height], the border on the right side. *)
Definition end_line (s : scan_state) : scan_state :=
  push_border (mkScan true (scan_width s) (scan_height s + 1) (scan_population s)
                 (temp_board s) (temporaries s)).

Fixpoint scan_cells (inp : list ascii) (s : scan_state) : result scan_state :=
  match inp with
  | [] => if last_char_was_newline s then Ok s else Ok (end_line s)
  | c :: rest =>
    if bool_decide (c = newline) then
      if last_char_was_newline s then Ok s
      else scan_cells rest (end_line s)
    else
      let w := if bool_decide (scan_height s < 1) then scan_width s + 1
               else scan_width s in
      let s := mkScan (last_char_was_newline s) w (scan_height s)
                 (scan_population s) (temp_board s) (temporaries s) in
      let s := if last_char_was_newline s then push_border s else s in
      new_cell ← of_char c;
      let p := if is_alive new_cell then scan_population s + 1
               else scan_population s in
      scan_cells rest
        (mkScan false (scan_width s) (scan_height s) p
           (temp_board s ++ [new_cell]) (temporaries s))
  end.

Definition Life_ctor_inferred (inp : list ascii) : result (Life T) :=
  s ← scan_cells inp (mkScan true 0 0 0 [] 0);
  let n := Z.to_nat (scan_width s + 2) in
  let bottom := border_temp <$> seq (temporaries s) n in
  let top := border_temp <$> seq (temporaries s + n) n in
  Ok (mkLife (scan_height s) (scan_width s) (top ++ temp_board s ++ bottom)
        0 (scan_population s)).
End Inferred.

(** *** Life::iterator

    An iterator holds a reference to its board and the coordinates
    [(x, y)].  All iterators below range over one board [l], so the
    address comparison in [operator==] holds and is left out. *)
Record iterator : Type := mkIter { it_x : Z; it_y : Z }.

Definition iter_deref (l : Life T) (it : iterator) : result T :=
  at_get l (it_x it) (it_y it).

Definition iter_incr (l : Life T) (it : iterator) : iterator :=
  let y := it_y it + 1 in
  if bool_decide (y >= width l) then mkIter (it_x it + 1) 0
  else mkIter (it_x it) y.

Definition iter_decr (l : Life T) (it : iterator) : iterator :=
  let y := it_y it - 1 in
  if bool_decide (y < 0) then mkIter (it_x it - 1) (width l - 1)
  else mkIter (it_x it) y.

Definition iter_eqb (a b : iterator) : bool :=
  bool_decide (it_x a = it_x b) && bool_decide (it_y a = it_y b).

Definition begin_ (l : Life T) : iterator := mkIter 0 0.
Definition end_ (l : Life T) : iterator := mkIter (height l - 1) (width l).

(** [k] applications of [operator++]. *)
Fixpoint iter_advance (l : Life T) (k : nat) (it : iterator) : iterator :=
  match k with
  | O => it
  | S k' => iter_advance l k' (iter_incr l it)
  end.
End Life.

(** ** The cell classes *)

Module Cells.

(** The fields of the base class. *)
Record AbstractCell : Type := mkAbstractCell { alive : bool; border : bool }.

(** [AbstractCell(bool border_ = false) : border(border_) {}] initialises
    [border] only: [alive] keeps the indeterminate content of the storage,
    passed here as [indet_alive]. *)
Definition AbstractCell_ctor (indet_alive : bool) (border_ : bool) : AbstractCell :=
  mkAbstractCell indet_alive border_.

(** [virtual const bool is_alive() const { return alive; }] *)
Definition is_alive (c : AbstractCell) : bool := alive c.

(** [virtual const bool is_border() const { return border; }] *)
Definition is_border (c : AbstractCell) : bool := border c.

(** The two concrete classes; [ConwayCell] adds no field, [FredkinCell]
    adds [age_]. *)

Record ConwayCell : Type := mkConway { conway_base :> AbstractCell }.
Record FredkinCell : Type := mkFredkin { fredkin_base :> AbstractCell; age_ : Z }.

(** [ConwayCell(bool border_ = false) : AbstractCell(border_) {}] *)
Definition ConwayCell_of_bool (indet_alive : bool) (border_ : bool) : ConwayCell :=
  mkConway (AbstractCell_ctor indet_alive border_).

(** [FredkinCell(bool border_ = false) : AbstractCell(border_) {}]; [age_]
    is not initialised either. *)
Definition FredkinCell_of_bool (indet_alive : bool) (indet_age : Z) (border_ : bool)
  : FredkinCell :=
  mkFredkin (AbstractCell_ctor indet_alive border_) indet_age.

(** The object an [AbstractCell*] points to has one of the two concrete
    classes as its dynamic type. *)
Inductive object : Type :=
  | ConwayObject (c : ConwayCell)
  | FredkinObject (f : FredkinCell).

Inductive family : Type := Conway | Fredkin.

Definition object_family (o : object) : family :=
  match o with
  | ConwayObject _ => Conway
  | FredkinObject _ => Fredkin
  end.

Definition object_base (o : object) : AbstractCell :=
  match o with
  | ConwayObject c => conway_base c
  | FredkinObject f => fredkin_base f
  end.

(** [class Cell]: an owning pointer, [None] for [nullptr]. *)
Record Cell : Type := mkCell { acell : option object }.

(** [Cell(bool border_) : acell(new ConwayCell(border_)) {}] *)
Definition Cell_of_bool (indet_alive : bool) (border_ : bool) : Cell :=
  mkCell (Some (ConwayObject (ConwayCell_of_bool indet_alive border_))).

(** [Cell(const AbstractCell& c) : acell(c.clone()) {}] *)
Definition Cell_of_object (o : object) : Cell := mkCell (Some o).

Definition Cell_family (c : Cell) : option family := object_family <$> acell c.

(** Modelled from the spec: [Cell::is_alive] is declared in the header and
    defined in the missing Life.c++; it is a pure query delegating to the
    owned cell.  A null [Cell] owns nothing and answers [false]. *)
Definition Cell_is_alive (c : Cell) : bool :=
  from_option (λ o, is_alive (object_base o)) false (acell c).

(** Modelled from the spec: [Cell::is_border], declared in the header and
    defined in the missing Life.c++, delegates to the owned cell likewise. *)
Definition Cell_is_border (c : Cell) : bool :=
  from_option (λ o, is_border (object_base o)) false (acell c).

(** Modelled from the spec: [ConwayCell(const char&)] is defined in the
    missing Life.c++.  ['*'] parses to an alive cell, ['.'] to a dead
    one, both interior; any other character is rejected. *)
Definition ConwayCell_of_char (c : ascii) : result ConwayCell :=
  if bool_decide (c = "*"%char) then Ok (mkConway (mkAbstractCell true false))
  else if bool_decide (c = "."%char) then Ok (mkConway (mkAbstractCell false false))
  else Error InvalidCharacter.

(** Modelled from the spec: the bodies of [ConwayCell::evolve] and of
    [operator+] on Conway cells are in the missing Life.c++.  A cell is
    alive next generation iff it is alive with 2 or 3 alive neighbours or
    dead with exactly 3; a border cell is returned as it is. *)
Definition conway_rule (c : ConwayCell) (alive_neighbors : nat) : ConwayCell :=
  if is_border c then c
  else if is_alive c then
    mkConway (mkAbstractCell
                (bool_decide (alive_neighbors = 2%nat ∨ alive_neighbors = 3%nat)) false)
  else mkConway (mkAbstractCell (bool_decide (alive_neighbors = 3%nat)) false).

(** Modelled from the spec: a neighbour counts as alive when it is alive
    and no border cell; border neighbours count as dead. *)
Definition counts_alive (n : AbstractCell) : bool := is_alive n && negb (is_border n).

(** Modelled from the spec: the number of neighbours, given as [Cell]s,
    that count as alive. *)
Definition alive_among (neighbors : list Cell) : nat :=
  length (filter (λ n, Cell_is_alive n && negb (Cell_is_border n) = true) neighbors).

(** Modelled from the spec: [Cell ConwayCell::evolve(const Cell neighbors[8])],
    declared in the header and defined in the missing Life.c++, applies
    the Conway rule to the count of alive neighbours. *)
Definition ConwayCell_evolve (c : ConwayCell) (neighbors : list Cell) : Cell :=
  Cell_of_object (ConwayObject (conway_rule c (alive_among neighbors))).

(** Modelled from the spec: the friend [operator+] on Conway cells,
    declared in the header and defined in the missing Life.c++, is the
    same rule on neighbours given as [ConwayCell]s. *)
Definition ConwayCell_plus (c : ConwayCell) (neighbors : list ConwayCell) : ConwayCell :=
  conway_rule c (length (filter (λ n : ConwayCell, counts_alive n = true) neighbors)).

End Cells.

(** [Life<ConwayCell>]: the cell interface at [ConwayCell].  The border
    constructor and the two queries are those of the header; the
    constructor from a character and [operator+], whose bodies are not in
    the sources, are arguments.  The interface is indexed by the
    indeterminate [alive] the border constructor leaves. *)
Definition ConwayCell_CellLike_with (indet_alive : bool)
    (of_char_ : ascii → result Cells.ConwayCell)
    (plus_ : Cells.ConwayCell → list Cells.ConwayCell → Cells.ConwayCell)
  : CellLike Cells.ConwayCell := {|
  of_border := Cells.ConwayCell_of_bool indet_alive;
  of_char := of_char_;
  is_alive := λ c, Cells.is_alive (Cells.conway_base c);
  is_border := λ c, Cells.is_border (Cells.conway_base c);
  plus := plus_
|}.

(** The same with the constructor from a character and the rule filled in
    from the specification. *)
Definition ConwayCell_CellLike (indet_alive : bool) : CellLike Cells.ConwayCell :=
  ConwayCell_CellLike_with indet_alive Cells.ConwayCell_of_char Cells.ConwayCell_plus.

(** [Life<Cell>]: the cell interface at the polymorphic [Cell], with its
    border constructor from the header; the constructor from a character
    and [operator+], whose bodies are not in the sources, are arguments. *)
Definition Cell_CellLike_with (indet_alive : bool)
    (of_char_ : ascii → result Cells.Cell)
    (plus_ : Cells.Cell → list Cells.Cell → Cells.Cell)
  : CellLike Cells.Cell := {|
  of_border := Cells.Cell_of_bool indet_alive;
  of_char := of_char_;
  is_alive := Cells.Cell_is_alive;
  is_border := Cells.Cell_is_border;
  plus := plus_
|}.

(** ** Specification vocabulary *)

(** The text of a board: every line followed by a newline. *)
Definition render_rows (rows : list (list ascii)) : list ascii :=
  concat ((λ r, r ++ [newline]) <$> rows).

(** The lines of a text: the runs of characters between newlines, and the
    run after the last newline when it is not empty.  [cur] is the line
    being read. *)
Fixpoint lines_from (cur : list ascii) (inp : list ascii) : list (list ascii) :=
  match inp with
  | [] => match cur with [] => [] | _ => [cur] end
  | c :: rest =>
    if bool_decide (c = newline) then cur :: lines_from [] rest
    else lines_from (cur ++ [c]) rest
  end.

Definition text_lines (inp : list ascii) : list (list ascii) := lines_from [] inp.

(** What may follow the last line: the end of the input or a blank line. *)
Definition terminator (rest : list ascii) : Prop :=
  rest = [] ∨ ∃ rest', rest = newline :: rest'.

(** Sum of [f] over a list of indices. *)
Definition sumZ (f : Z → Z) (idx : list Z) : Z := foldr (λ i acc, f i + acc) 0 idx.
Global Arguments sumZ : simpl never.

(** Physical index [i] lies on the one-cell frame of an [h] by [w] board. *)
Definition on_frame (h w i : Z) : Prop :=
  0 ≤ i < (w + 2) * (h + 2) ∧
  (i `div` (w + 2) = 0 ∨ i `div` (w + 2) = h + 1 ∨
   i `mod` (w + 2) = 0 ∨ i `mod` (w + 2) = w + 1).

(** Physical index [i] holds an interior cell. *)
Definition interiorb (h w i : Z) : bool :=
  bool_decide (1 ≤ i `div` (w + 2) ≤ h ∧ 1 ≤ i `mod` (w + 2) ≤ w).

(** Every intermediate result of the index expression of [at] fits an
    [int]. *)
Definition index_fits (w x y : Z) : Prop :=
  in_int (x + 1) ∧ in_int (w + 2) ∧ in_int ((x + 1) * (w + 2)) ∧
  in_int ((x + 1) * (w + 2) + y) ∧ in_int (phys w x y).

Section LifeSpec.
Context {T : Type} `{CellLike T}.

(** The storage has the padded size. *)
Definition valid (l : Life T) : Prop :=
  0 ≤ height l ∧ 0 ≤ width l ∧
  Z.of_nat (length (board l)) = (width l + 2) * (height l + 2).

(** Every frame position holds the border cell construction put there. *)
Definition framed (l : Life T) : Prop :=
  ∀ i, on_frame (height l) (width l) i →
       board l !! Z.to_nat i = Some (of_border true).

(** The cell stored at physical index [i]. *)
Definition cell_of (b : list T) (i : Z) : T :=
  default (of_border true) (b !! Z.to_nat i).

(** What a cell adds to the population. *)
Definition alive01 (c : T) : Z := if is_alive c then 1 else 0.

(** Number of alive interior cells, counted over the interior coordinates. *)
Definition alive_interior (l : Life T) : Z :=
  sumZ (λ x, sumZ (λ y, alive01 (cell_of (board l) (phys (width l) x y)))
               (seqZ 0 (width l)))
       (seqZ 0 (height l)).

(** Character [c] of a board text parses to cell [t]. *)
Definition parsed (c : ascii) (t : T) : Prop := c ≠ newline ∧ of_char c = Ok t.

(** A text of [h] lines of [w] characters each, parsing to the grid
    [cells], every line ended by a newline. *)
Definition grid_text (h w : Z) (rows : list (list ascii)) (cells : list (list T))
  : Prop :=
  Z.of_nat (length rows) = h ∧ 0 ≤ w ∧
  Forall2 (λ r ts, r ≠ [] ∧ Z.of_nat (length ts) = w ∧ Forall2 parsed r ts)
          rows cells.

(** The synchronous step as a pure function of the old board: every
    interior cell is mapped, independently of the others, to the result of
    the rule on its old value and its eight old neighbours. *)
Definition neighbors_of (b : list T) (w x y : Z) : list T :=
  cell_of b <$> neighbor_indices w x y.

Definition next_cell (b : list T) (w x y : Z) : T :=
  plus (cell_of b (phys w x y)) (neighbors_of b w x y).

Definition step_board (h w : Z) (b : list T) : list T :=
  imap (λ i c, if interiorb h w (Z.of_nat i)
               then next_cell b w (Z.of_nat i `div` (w + 2) - 1)
                                  (Z.of_nat i `mod` (w + 2) - 1)
               else c) b.
End LifeSpec.

(** ** The order of the eight neighbours *)

(** Index of the slot [d.1] rows below and [d.2] columns right of the slot
    of interior coordinate [(x, y)], in the row-major layout
    [row * (width + 2) + col]. *)
Definition offset_index (w x y : Z) (d : Z * Z) : Z :=
  (x + 1 + d.1) * (w + 2) + (y + 1 + d.2).

(** The documented order, as (row, column) offsets: up, right, down, left,
    top-right, bottom-right, bottom-left, top-left. *)
Definition documented_order : list (Z * Z) :=
  [(-1, 0); (0, 1); (1, 0); (0, -1); (-1, 1); (1, 1); (1, -1); (-1, -1)].

(** The offsets the array initialiser of [evolve_all] reads, in its order:
    left, down, right, up, bottom-left, bottom-right, top-right, top-left. *)
Definition scanned_order : list (Z * Z) :=
  [(0, -1); (1, 0); (0, 1); (-1, 0); (1, -1); (1, 1); (-1, 1); (-1, -1)].

(** The storage of a 3 by 3 board whose slot [i] holds the marker [i]. *)
Definition markers : list Z := seqZ 0 25.

(** ** Example boards of [Life<ConwayCell>] *)

(** The example boards use the border constructor on zeroed storage: the
    indeterminate [alive] of their border cells is [false]. *)
#[global] Instance conway_cells : CellLike Cells.ConwayCell := ConwayCell_CellLike false.

Definition conway_border : Cells.ConwayCell := Cells.ConwayCell_of_bool false true.
Definition conway_alive : Cells.ConwayCell :=
  Cells.mkConway (Cells.mkAbstractCell true false).
Definition conway_dead : Cells.ConwayCell :=
  Cells.mkConway (Cells.mkAbstractCell false false).

Definition blinker_rows : list (list ascii) :=
  [ [ "."; "*"; "." ]; [ "."; "*"; "." ]; [ "."; "*"; "." ] ]%char.

Definition blinker_cells : list (list Cells.ConwayCell) :=
  [ [ conway_dead; conway_alive; conway_dead ];
    [ conway_dead; conway_alive; conway_dead ];
    [ conway_dead; conway_alive; conway_dead ] ].

Definition blinker : Life Cells.ConwayCell :=
  let B := conway_border in
  let A := conway_alive in
  let D := conway_dead in
  mkLife 3 3
    [ B; B; B; B; B;
      B; D; A; D; B;
      B; D; A; D; B;
      B; D; A; D; B;
      B; B; B; B; B ] 0 3.

Definition single_cell : Life Cells.ConwayCell :=
  let B := conway_border in
  mkLife 1 1 [ B; B; B; B; conway_alive; B; B; B; B ] 0 1.

(** A board of one row and two columns. *)
Definition pair_board : Life Cells.ConwayCell :=
  let B := conway_border in
  mkLife 1 2 [ B; B; B; B;  B; conway_alive; conway_dead; B;  B; B; B; B ] 0 1.

(** Two lines of unequal length, both ended by a newline. *)
Definition jagged_text : list ascii := [ "*"; "*"; newline; "*"; newline ]%char.

(** What the dimension-inferring constructor builds from [jagged_text]:
    15 cells for dimensions 2 by 2. *)
Definition jagged_board : Life Cells.ConwayCell :=
  let B := conway_border in
  let A := conway_alive in
  mkLife 2 2 [ B; B; B; B;  B; A; A; B;  B; A; B;  B; B; B; B ] 0 3.

(** A board without interior. *)
Definition empty_board : Life Cells.ConwayCell :=
  let B := conway_border in
  mkLife 0 0 [ B; B; B; B ] 0 0.

(** ** An example board of [Life<Cell>] *)

(** An alive Fredkin cell of age 0, owned by a [Cell]. *)
Definition fredkin_alive : Cells.Cell :=
  Cells.Cell_of_object
    (Cells.FredkinObject (Cells.mkFredkin (Cells.mkAbstractCell true false) 0)).

(** Neighbours of a Conway cell as [Cell]s: an alive cell, a dead cell, and
    a border cell whose indeterminate [alive] is [true]. *)
Definition alive_neighbor : Cells.Cell :=
  Cells.Cell_of_object (Cells.ConwayObject conway_alive).
Definition dead_neighbor : Cells.Cell :=
  Cells.Cell_of_object (Cells.ConwayObject conway_dead).
Definition border_neighbor : Cells.Cell := Cells.Cell_of_bool true true.

(** Eight neighbours with two, three and four alive cells among them. *)
Definition two_alive : list Cells.Cell :=
  [ alive_neighbor; dead_neighbor; border_neighbor; dead_neighbor;
    alive_neighbor; dead_neighbor; border_neighbor; dead_neighbor ].
Definition three_alive : list Cells.Cell :=
  [ alive_neighbor; dead_neighbor; border_neighbor; alive_neighbor;
    alive_neighbor; dead_neighbor; border_neighbor; dead_neighbor ].
Definition four_alive : list Cells.Cell :=
  [ alive_neighbor; alive_neighbor; border_neighbor; alive_neighbor;
    alive_neighbor; dead_neighbor; border_neighbor; dead_neighbor ].

(** One value of the unknown constructor from a character, chosen for the
    example: every character makes [fredkin_alive]. *)
Definition fredkin_example_of_char (c : ascii) : result Cells.Cell := Ok fredkin_alive.

(** One value of the unknown [operator+], chosen for the example: the cell
    is returned unchanged. *)
Definition unchanged_example_plus (c : Cells.Cell) (neighbors : list Cells.Cell)
  : Cells.Cell := c.

(** The claim that the border cell made for a board of family [fam] is of
    that family, for the polymorphic [Cell]. *)
Definition border_cell_matches (fam : Cells.family) : Prop :=
  ∀ indet_alive, Cells.Cell_family (Cells.Cell_of_bool indet_alive true) = Some fam.

(** ** print(std::ostream& out) *)

(** [out << n] for an [int]: its decimal digits, with a leading minus sign
    for a negative number. *)
Definition show_int (n : Z) : list ascii := list_ascii_of_string (pretty n).

Section Print.
Context {T : Type}.

(** What [out << cell] writes; the printing of the cell classes is
    defined in the missing Life.c++. *)
Variable show_cell : T → list ascii.

(** The first line [print] writes. *)
Definition print_header (l : Life T) : list ascii :=
  list_ascii_of_string "Generation = " ++ show_int (generation l) ++
  list_ascii_of_string ", Population = " ++ show_int (population l) ++
  list_ascii_of_string "." ++ [newline].

(** The body of the outer loop of [print] for physical row [x]; [out] is
    what the stream holds so far. *)
Definition print_row (l : Life T) (x : Z) (out : list ascii) : result (list ascii) :=
  out ← for_each (seqZ 1 (width l))
          (λ y out, cell ← vec_index (board l) (x * (width l + 2) + y);
                    Ok (out ++ show_cell cell)) out;
  Ok (out ++ [newline]).

Definition print (l : Life T) : result (list ascii) :=
  out ← for_each (seqZ 1 (height l)) (print_row l) (print_header l);
  Ok (out ++ [newline]).
End Print.

(** One value of the unknown [operator<<] of [ConwayCell], chosen for the
    examples: ['*'] for an alive cell, ['.'] for a dead one. *)
Definition conway_example_char (c : Cells.ConwayCell) : ascii :=
  if Cells.is_alive (Cells.conway_base c) then "*"%char else "."%char.

Definition conway_example_show (c : Cells.ConwayCell) : list ascii :=
  [conway_example_char c].

(** ** The explicit destructor call in evolve_all()

    The loop body ends with [at(x, y).~T(); at(x, y) = new_cell;].  When
    [~T] is trivial the destructor call has no effect (in C++ before
    C++20).  When it is not, the call ends the lifetime of the element,
    and [operator=], a member function, is then called on an object whose
    lifetime has ended: the behaviour is undefined. *)
Inductive destructor : Type := TrivialDestructor | NonTrivialDestructor.

(** [virtual ~AbstractCell() {}] makes the destructors of [ConwayCell] and
    [FredkinCell] non-trivial, and [Cell] declares [~Cell()]. *)
Definition cell_destructor : destructor := NonTrivialDestructor.

Section Lifetime.
Context {T : Type} `{CellLike T}.
Variable dtor : destructor.

(** [at(x, y).~T(); at(x, y) = new_cell;] *)
Definition destroy_then_assign (l : Life T) (x y : Z) (new_cell : T)
  : result (Life T) :=
  _ ← at_get l x y;
  match dtor with
  | TrivialDestructor => at_put l x y new_cell
  | NonTrivialDestructor => _ ← at_get l x y; Error UndefinedBehaviour
  end.

Definition evolve_cell_lifetime (temp_board : list T) (x y : Z) (l : Life T)
  : result (Life T) :=
  cell ← at_get l x y;
  neighbors ← read_neighbors temp_board (width l) x y;
  let new_cell := plus cell neighbors in
  let l := count_if_alive new_cell l in
  destroy_then_assign l x y new_cell.

Definition evolve_all_lifetime (l : Life T) : result (Life T) :=
  let l0 := set_population l 0 in
  let temp_board := board l0 in
  l1 ← for_each (seqZ 0 (height l0))
         (λ x l, for_each (seqZ 0 (width l))
                   (λ y l, evolve_cell_lifetime temp_board x y l) l) l0;
  Ok (set_generation l1 (generation l1 + 1)).

(** [n] calls of [evolve_all]. *)
Fixpoint evolve_n_lifetime (n : nat) (l : Life T) : result (Life T) :=
  match n with
  | O => Ok l
  | S n' => l' ← evolve_all_lifetime l; evolve_n_lifetime n' l'
  end.

(** *** evolve_all() of the middle revision

    The same step with the neighbours read by the checked
    [temp_board.at(...)] into a vector, the cell copied out of
    [at(x, y)], and the [operator+] of that revision, which takes the
    neighbours as a [std::vector<T>]. *)
Variable plus_vector : T → list T → T.

Definition read_neighbors_checked (temp_board : list T) (w x y : Z)
  : result (list T) :=
  n0 ← vec_at temp_board ((x + 1) * (w + 2) + y);
  n1 ← vec_at temp_board ((x + 2) * (w + 2) + y + 1);
  n2 ← vec_at temp_board ((x + 1) * (w + 2) + y + 2);
  n3 ← vec_at temp_board (x * (w + 2) + y + 1);
  n4 ← vec_at temp_board ((x + 2) * (w + 2) + y);
  n5 ← vec_at temp_board ((x + 2) * (w + 2) + y + 2);
  n6 ← vec_at temp_board (x * (w + 2) + y + 2);
  n7 ← vec_at temp_board (x * (w + 2) + y);
  Ok [n0; n1; n2; n3; n4; n5; n6; n7].

Definition evolve_cell_checked (temp_board : list T) (x y : Z) (l : Life T)
  : result (Life T) :=
  cell ← at_get l x y;
  neighbors ← read_neighbors_checked temp_board (width l) x y;
  let new_cell := plus_vector cell neighbors in
  let l := count_if_alive new_cell l in
  destroy_then_assign l x y new_cell.

Definition evolve_all_checked (l : Life T) : result (Life T) :=
  let l0 := set_population l 0 in
  let temp_board := board l0 in
  l1 ← for_each (seqZ 0 (height l0))
         (λ x l, for_each (seqZ 0 (width l))
                   (λ y l, evolve_cell_checked temp_board x y l) l) l0;
  Ok (set_generation l1 (generation l1 + 1)).
End Lifetime.

(** ** More specification vocabulary *)

(** [k] applications of [operator--]. *)
Fixpoint iter_retreat {T : Type} (l : Life T) (k : nat) (it : iterator) : iterator :=
  match k with
  | O => it
  | S k' => iter_retreat l k' (iter_decr l it)
  end.

(** Two runs succeed together, with the same result, and under condition
    [P] the second does not run into undefined behaviour. *)
Definition same_success {A : Type} (P : Prop) (r1 r2 : result A) : Prop :=
  (∀ a, r1 = Ok a ↔ r2 = Ok a) ∧ (P → r2 ≠ Error UndefinedBehaviour).

(** Sum of [f] over the elements of a list. *)
Definition sum_with {A : Type} (f : A → Z) (l : list A) : Z :=
  foldr (λ a acc, f a + acc) 0 l.
Global Arguments sum_with : simpl never.

Section MoreSpec.
Context {T : Type} `{CellLike T}.

(** Number of alive cells of a grid. *)
Definition alive_total (cells : list (list T)) : Z :=
  sum_with (sum_with alive01) cells.

(** The padded storage of a grid: a row of border cells, every line of
    the grid between two border cells, a row of border cells. *)
Definition padded_board (w : Z) (cells : list (list T)) : list T :=
  replicate (Z.to_nat (w + 2)) (of_border true) ++
  concat ((λ ts, of_border true :: ts ++ [of_border true]) <$> cells) ++
  replicate (Z.to_nat (w + 2)) (of_border true).

(** The storage the dimension-inferring constructor builds for a grid of
    [h] lines: the side borders are the temporaries [0, ..., 2h - 1], the
    bottom row the next [w + 2], the top row the [w + 2] after those. *)
Definition padded_rows (border_temp : nat → T) (k : nat) (cells : list (list T))
  : list (list T) :=
  imap (λ i ts, border_temp (k + 2 * i)%nat :: ts ++ [border_temp (k + 2 * i + 1)%nat])
       cells.

Definition padded_board_temps (border_temp : nat → T) (w : Z) (cells : list (list T))
  : list T :=
  let n := Z.to_nat (w + 2) in
  let k := (2 * length cells)%nat in
  (border_temp <$> seq (k + n) n) ++
  concat (padded_rows border_temp 0 cells) ++
  (border_temp <$> seq k n).

(** The interior cells of row [x] of a board, left to right, and the
    interior rows top to bottom. *)
Definition interior_row (l : Life T) (x : Z) : list T :=
  (λ y, cell_of (board l) (phys (width l) x y)) <$> seqZ 0 (width l).

Definition interior_rows (l : Life T) : list (list T) :=
  interior_row l <$> seqZ 0 (height l).
End MoreSpec.

(** ** Lemmas on the result monad and the vector accesses *)

Lemma bind_Ok {A B} (a : A) (f : A → result B) : (Ok a ≫= f) = f a.
Proof. reflexivity. Qed.

Lemma vec_at_Ok {A} (v : list A) (i : Z) (a : A) :
  0 ≤ i → v !! Z.to_nat i = Some a → vec_at v i = Ok a.
Proof.
  intros Hi Hv. unfold vec_at. rewrite bool_decide_eq_true_2 by done.
  by rewrite Hv.
Qed.

Lemma vec_at_Error {A} (v : list A) (i : Z) :
  vec_at v i = Error OutOfRange ↔ i < 0 ∨ Z.of_nat (length v) ≤ i.
Proof.
  unfold vec_at. case_bool_decide as Hi.
  - destruct (v !! Z.to_nat i) eqn:Hv.
    + apply lookup_lt_Some in Hv. split; [done | lia].
    + apply lookup_ge_None in Hv. split; [lia | done].
  - split; [lia | done].
Qed.

Lemma vec_index_Ok {A} (v : list A) (i : Z) (a : A) :
  0 ≤ i → v !! Z.to_nat i = Some a → vec_index v i = Ok a.
Proof.
  intros Hi Hv. unfold vec_index. rewrite bool_decide_eq_true_2 by done.
  by rewrite Hv.
Qed.

Lemma vec_at_put_Ok {A} (v : list A) (i : Z) (a : A) :
  0 ≤ i < Z.of_nat (length v) → vec_at_put v i a = Ok (<[Z.to_nat i := a]> v).
Proof. intros Hi. unfold vec_at_put. by rewrite bool_decide_eq_true_2. Qed.

Lemma sumZ_cons (f : Z → Z) (i : Z) (idx : list Z) :
  sumZ f (i :: idx) = f i + sumZ f idx.
Proof. reflexivity. Qed.

Lemma sumZ_ext (f g : Z → Z) (idx : list Z) :
  (∀ i, i ∈ idx → f i = g i) → sumZ f idx = sumZ g idx.
Proof.
  induction idx as [|i idx IH]; intros Hfg; [done|].
  rewrite !sumZ_cons, IH, (Hfg i); [done | by left | intros; apply Hfg; by right].
Qed.

(** ** Arithmetic of the padded layout *)

Lemma phys_div (w x y : Z) : 0 ≤ y < w → phys w x y `div` (w + 2) = x + 1.
Proof.
  intros Hy. unfold phys. symmetry.
  apply (Z.div_unique_pos _ _ _ (y + 1)); lia.
Qed.

Lemma phys_mod (w x y : Z) : 0 ≤ y < w → phys w x y `mod` (w + 2) = y + 1.
Proof.
  intros Hy. unfold phys. symmetry.
  apply (Z.mod_unique_pos _ _ (x + 1)); lia.
Qed.

Lemma phys_inj (w x y x' y' : Z) :
  0 ≤ y < w → 0 ≤ y' < w → phys w x y = phys w x' y' → x = x' ∧ y = y'.
Proof.
  intros Hy Hy' Heq.
  pose proof (phys_div w x y Hy) as Hd. pose proof (phys_mod w x y Hy) as Hm.
  rewrite Heq in Hd, Hm. rewrite phys_div in Hd by done.
  rewrite phys_mod in Hm by done. lia.
Qed.

Lemma phys_bounds (h w x y : Z) :
  0 ≤ x < h → 0 ≤ y < w → 0 ≤ phys w x y < (w + 2) * (h + 2).
Proof. intros Hx Hy. unfold phys. nia. Qed.

Lemma neighbor_indices_bounds (h w x y : Z) :
  0 ≤ x < h → 0 ≤ y < w →
  Forall (λ k, 0 ≤ k < (w + 2) * (h + 2)) (neighbor_indices w x y).
Proof.
  intros Hx Hy. unfold neighbor_indices.
  repeat (apply Forall_cons; split; [nia|]). apply Forall_nil_2.
Qed.

Lemma interiorb_phys (h w x y : Z) :
  0 ≤ x < h → 0 ≤ y < w → interiorb h w (phys w x y) = true.
Proof.
  intros Hx Hy. unfold interiorb.
  rewrite phys_div, phys_mod by done. apply bool_decide_eq_true_2. lia.
Qed.

Lemma interiorb_inv (h w i : Z) :
  0 ≤ w → interiorb h w i = true →
  ∃ x y, 0 ≤ x < h ∧ 0 ≤ y < w ∧ i = phys w x y.
Proof.
  intros Hw Hi. unfold interiorb in Hi. apply bool_decide_eq_true_1 in Hi.
  exists (i `div` (w + 2) - 1), (i `mod` (w + 2) - 1).
  split; [lia|]. split; [lia|]. unfold phys.
  pose proof (Z.div_mod i (w + 2)). lia.
Qed.

(** ** The generation step *)

Section EvolveProofs.
Context {T : Type} `{CellLike T}.
Implicit Types (l : Life T) (b old : list T).

Lemma vec_index_cell_of b (k : Z) :
  0 ≤ k < Z.of_nat (length b) → vec_index b k = Ok (cell_of b k).
Proof.
  intros Hk. destruct (lookup_lt_is_Some_2 b (Z.to_nat k)) as [c Hc]; [lia|].
  unfold cell_of. rewrite Hc. apply vec_index_Ok; [lia | done].
Qed.

Lemma vec_at_cell_of b (k : Z) :
  0 ≤ k < Z.of_nat (length b) → vec_at b k = Ok (cell_of b k).
Proof.
  intros Hk. destruct (lookup_lt_is_Some_2 b (Z.to_nat k)) as [c Hc]; [lia|].
  unfold cell_of. rewrite Hc. apply vec_at_Ok; [lia | done].
Qed.

Lemma read_neighbors_Ok b (h w x y : Z) :
  0 ≤ x < h → 0 ≤ y < w → Z.of_nat (length b) = (w + 2) * (h + 2) →
  read_neighbors b w x y = Ok (neighbors_of b w x y).
Proof.
  intros Hx Hy Hlen. unfold read_neighbors, neighbors_of, neighbor_indices.
  rewrite (Z.mul_comm (w + 2)) in Hlen.
  repeat (rewrite vec_index_cell_of by nia). reflexivity.
Qed.

(** One iteration of the loop body on a cell not yet overwritten. *)
Lemma evolve_cell_Ok old l (x y : Z) :
  0 ≤ x < height l → 0 ≤ y < width l →
  Z.of_nat (length old) = (width l + 2) * (height l + 2) →
  length (board l) = length old →
  board l !! Z.to_nat (phys (width l) x y) = old !! Z.to_nat (phys (width l) x y) →
  evolve_cell old x y l =
    Ok (set_board (count_if_alive (next_cell old (width l) x y) l)
          (<[Z.to_nat (phys (width l) x y) := next_cell old (width l) x y]> (board l))).
Proof.
  intros Hx Hy Hold Hlen Hsame.
  pose proof (phys_bounds _ _ _ _ Hx Hy) as Hp.
  unfold evolve_cell, at_get.
  rewrite vec_at_cell_of by lia. rewrite bind_Ok.
  rewrite (read_neighbors_Ok old (height l)) by done. rewrite bind_Ok.
  assert (cell_of (board l) (phys (width l) x y) = cell_of old (phys (width l) x y))
    as -> by (unfold cell_of; by rewrite Hsame).
  fold (next_cell old (width l) x y).
  set (nc := next_cell old (width l) x y).
  assert (width (count_if_alive nc l) = width l ∧
          board (count_if_alive nc l) = board l) as [Hw Hb].
  { unfold count_if_alive. by destruct (is_alive nc). }
  rewrite Hw, Hb. rewrite vec_at_cell_of by lia. rewrite bind_Ok.
  unfold at_put. rewrite Hw, Hb, vec_at_put_Ok by lia. by rewrite bind_Ok.
Qed.

(** The inner loop over the columns [y0 .. y0+n-1] of row [x]: it
    succeeds, writes the new value of exactly these cells, and counts the
    alive ones among them. *)
Lemma evolve_row_spec old (x : Z) (n : nat) : ∀ (y0 : Z) l,
  0 ≤ x < height l → 0 ≤ y0 → y0 + Z.of_nat n ≤ width l →
  Z.of_nat (length old) = (width l + 2) * (height l + 2) →
  length (board l) = length old →
  (∀ y, y0 ≤ y < y0 + Z.of_nat n →
        board l !! Z.to_nat (phys (width l) x y) = old !! Z.to_nat (phys (width l) x y)) →
  ∃ l', for_each (seqZ y0 (Z.of_nat n)) (λ y l, evolve_cell old x y l) l = Ok l' ∧
        height l' = height l ∧ width l' = width l ∧
        generation l' = generation l ∧
        length (board l') = length (board l) ∧
        population l' =
          population l + sumZ (λ y, alive01 (next_cell old (width l) x y))
                           (seqZ y0 (Z.of_nat n)) ∧
        (∀ y, y0 ≤ y < y0 + Z.of_nat n →
              board l' !! Z.to_nat (phys (width l) x y)
              = Some (next_cell old (width l) x y)) ∧
        (∀ i : nat, (∀ y, y0 ≤ y < y0 + Z.of_nat n →
                          i ≠ Z.to_nat (phys (width l) x y)) →
                    board l' !! i = board l !! i).
Proof.
  induction n as [|n IH]; intros y0 l Hx Hy0 Hyn Hold Hlen Hsame.
  - exists l. rewrite seqZ_nil by lia. unfold sumZ. simpl.
    repeat split; try done; lia.
  - rewrite seqZ_cons by lia. simpl.
    rewrite evolve_cell_Ok; [| done | lia | done | done | apply Hsame; lia].
    rewrite bind_Ok.
    set (nc := next_cell old (width l) x y0).
    set (l1 := set_board (count_if_alive nc l) _).
    assert (height l1 = height l ∧ width l1 = width l ∧
            generation l1 = generation l ∧
            board l1 = <[Z.to_nat (phys (width l) x y0) := nc]> (board l) ∧
            population l1 = population l + alive01 nc)
      as (Hh1 & Hw1 & Hg1 & Hb1 & Hp1).
    { unfold l1, count_if_alive, alive01.
      destruct (is_alive nc); simpl; repeat split; lia. }
    replace (Z.pred (Z.of_nat (S n))) with (Z.of_nat n) by lia.
    destruct (IH (Z.succ y0) l1) as (l' & Hrun & Hh & Hw & Hg & Hl & Hp & Hnew & Hrest).
    + by rewrite Hh1.
    + lia.
    + rewrite Hw1. lia.
    + by rewrite Hw1, Hh1.
    + by rewrite Hb1, length_insert.
    + intros y Hy. rewrite Hw1, Hb1.
      rewrite list_lookup_insert_ne; [apply Hsame; lia|].
      intros Heq. apply Z2Nat.inj in Heq; [| unfold phys; nia | unfold phys; nia].
      apply phys_inj in Heq; lia.
    + exists l'. rewrite Hrun. rewrite Hw1 in *.
      split; [done|]. split; [congruence|]. split; [congruence|].
      split; [congruence|]. split; [by rewrite Hl, Hb1, length_insert|].
      split; [rewrite Hp, Hp1, sumZ_cons; fold nc; lia|].
      split.
      * intros y Hy. destruct (decide (y = y0)) as [->|Hne].
        -- rewrite Hrest.
           ++ rewrite Hb1. apply list_lookup_insert_eq.
              pose proof (phys_bounds (height l) (width l) x y0). lia.
           ++ intros y' Hy' Heq.
              apply Z2Nat.inj in Heq; [| unfold phys; nia | unfold phys; nia].
              apply phys_inj in Heq; lia.
        -- apply Hnew. lia.
      * intros i Hi. rewrite Hrest by (intros y Hy; apply Hi; lia).
        rewrite Hb1. apply list_lookup_insert_ne.
        intros Heq. apply (Hi y0); [lia | done].
Qed.

(** The outer loop over the rows [x0 .. x0+m-1]. *)
Lemma evolve_rows_spec old (m : nat) : ∀ (x0 : Z) l,
  0 ≤ x0 → x0 + Z.of_nat m ≤ height l → 0 ≤ width l →
  Z.of_nat (length old) = (width l + 2) * (height l + 2) →
  length (board l) = length old →
  (∀ x y, x0 ≤ x < x0 + Z.of_nat m → 0 ≤ y < width l →
          board l !! Z.to_nat (phys (width l) x y) = old !! Z.to_nat (phys (width l) x y)) →
  ∃ l', for_each (seqZ x0 (Z.of_nat m))
          (λ x l, for_each (seqZ 0 (width l)) (λ y l, evolve_cell old x y l) l) l
        = Ok l' ∧
        height l' = height l ∧ width l' = width l ∧
        generation l' = generation l ∧
        length (board l') = length (board l) ∧
        population l' =
          population l +
          sumZ (λ x, sumZ (λ y, alive01 (next_cell old (width l) x y))
                       (seqZ 0 (width l)))
               (seqZ x0 (Z.of_nat m)) ∧
        (∀ x y, x0 ≤ x < x0 + Z.of_nat m → 0 ≤ y < width l →
                board l' !! Z.to_nat (phys (width l) x y)
                = Some (next_cell old (width l) x y)) ∧
        (∀ i : nat, (∀ x y, x0 ≤ x < x0 + Z.of_nat m → 0 ≤ y < width l →
                            i ≠ Z.to_nat (phys (width l) x y)) →
                    board l' !! i = board l !! i).
Proof.
  induction m as [|m IH]; intros x0 l Hx0 Hxm Hw Hold Hlen Hsame.
  - exists l. rewrite seqZ_nil by lia. unfold sumZ. simpl.
    repeat split; try done; lia.
  - rewrite seqZ_cons by lia. simpl.
    destruct (evolve_row_spec old x0 (Z.to_nat (width l)) 0 l)
      as (l1 & Hrun1 & Hh1 & Hw1 & Hg1 & Hl1 & Hp1 & Hnew1 & Hrest1);
      [lia | lia | lia | done | done | intros y Hy; apply Hsame; lia |].
    rewrite Z2Nat.id in Hrun1, Hp1 by lia.
    rewrite Hrun1, bind_Ok.
    replace (Z.pred (Z.of_nat (S m))) with (Z.of_nat m) by lia.
    destruct (IH (Z.succ x0) l1) as (l' & Hrun & Hh & Hw' & Hg & Hl & Hp & Hnew & Hrest).
    + lia.
    + rewrite Hh1. lia.
    + by rewrite Hw1.
    + by rewrite Hw1, Hh1.
    + by rewrite Hl1.
    + intros x y Hx Hy. rewrite Hw1 in *. rewrite Hrest1; [apply Hsame; lia|].
      intros y' Hy' Heq.
      apply Z2Nat.inj in Heq; [| unfold phys; nia | unfold phys; nia].
      apply phys_inj in Heq; lia.
    + exists l'. rewrite Hrun. rewrite Hw1 in *.
      split; [done|]. split; [congruence|]. split; [congruence|].
      split; [congruence|]. split; [congruence|].
      split; [rewrite Hp, Hp1, sumZ_cons; lia|].
      split.
      * intros x y Hx Hy. destruct (decide (x = x0)) as [->|Hne].
        -- rewrite Hrest; [apply Hnew1; lia|].
           intros x' y' Hx' Hy' Heq.
           apply Z2Nat.inj in Heq; [| unfold phys; nia | unfold phys; nia].
           apply phys_inj in Heq; lia.
        -- apply Hnew; lia.
      * intros i Hi. rewrite Hrest by (intros x y Hx Hy; apply Hi; lia).
        apply Hrest1. intros y Hy. apply Hi; lia.
Qed.

Lemma step_board_lookup_interior b (h w x y : Z) :
  0 ≤ x < h → 0 ≤ y < w → Z.of_nat (length b) = (w + 2) * (h + 2) →
  step_board h w b !! Z.to_nat (phys w x y) = Some (next_cell b w x y).
Proof.
  intros Hx Hy Hlen. pose proof (phys_bounds h w x y Hx Hy) as Hp.
  unfold step_board. rewrite list_lookup_imap.
  destruct (lookup_lt_is_Some_2 b (Z.to_nat (phys w x y))) as [c ->]; [lia|].
  simpl. rewrite Z2Nat.id by lia.
  rewrite interiorb_phys, phys_div, phys_mod by done.
  do 2 f_equal; lia.
Qed.

Lemma step_board_lookup_other b (h w : Z) (i : nat) :
  interiorb h w (Z.of_nat i) = false → step_board h w b !! i = b !! i.
Proof.
  intros Hi. unfold step_board. rewrite list_lookup_imap.
  destruct (b !! i); simpl; [by rewrite Hi | done].
Qed.

(** What one call of [evolve_all] does on a valid board. *)
Lemma evolve_all_spec l :
  valid l →
  ∃ l', evolve_all l = Ok l' ∧
        height l' = height l ∧ width l' = width l ∧
        generation l' = generation l + 1 ∧
        board l' = step_board (height l) (width l) (board l) ∧
        population l' = alive_interior l'.
Proof.
  intros (Hh & Hw & Hlen). unfold evolve_all.
  destruct (evolve_rows_spec (board l) (Z.to_nat (height l)) 0 (set_population l 0))
    as (l1 & Hrun & Hh1 & Hw1 & Hg1 & Hl1 & Hp1 & Hnew & Hrest);
    simpl; [lia | lia | lia | done | done | done |].
  simpl in *. rewrite Z2Nat.id in Hrun, Hp1 by lia.
  rewrite Hrun, bind_Ok. eexists. split; [done|]. simpl.
  assert (board l1 = step_board (height l) (width l) (board l)) as Hb.
  { apply list_eq. intros i.
    destruct (interiorb (height l) (width l) (Z.of_nat i)) eqn:Hi.
    - apply interiorb_inv in Hi as (x & y & Hx & Hy & Heq); [|done].
      replace i with (Z.to_nat (phys (width l) x y)) by lia.
      rewrite (step_board_lookup_interior _ (height l)) by done.
      apply Hnew; lia.
    - rewrite step_board_lookup_other by done. apply Hrest.
      intros x y Hx Hy ->.
      rewrite Z2Nat.id in Hi by (unfold phys; nia).
      rewrite interiorb_phys in Hi; [done | lia | lia]. }
  repeat split; [done | done | lia | done |].
  rewrite Hp1. unfold alive_interior. simpl. rewrite Hh1, Hw1.
  rewrite Z.add_0_l. apply sumZ_ext. intros x Hx. apply sumZ_ext. intros y Hy.
  apply elem_of_seqZ in Hx, Hy.
  unfold alive01, cell_of at 1. rewrite Hnew by lia. done.
Qed.
End EvolveProofs.

(** ** Construction from text *)

Section CtorProofs.
Context {T : Type} `{CellLike T}.
Implicit Types (l : Life T) (b : list T) (r : list ascii) (ts : list T).

(** Reading one cell character into a slot of the storage. *)
Lemma read_cells_char (c : ascii) (t : T) (rest : list ascii) l (x y : Z) :
  parsed c t →
  0 ≤ phys (width l) x y < Z.of_nat (length (board l)) →
  read_cells (c :: rest) l x y =
    read_cells rest
      (set_board (count_if_alive t l) (<[Z.to_nat (phys (width l) x y) := t]> (board l)))
      x (y + 1).
Proof.
  intros [Hnl Hc] Hp. simpl. rewrite bool_decide_eq_false_2 by done.
  rewrite Hc, bind_Ok.
  assert (width (count_if_alive t l) = width l ∧
          board (count_if_alive t l) = board l) as [Hw Hb].
  { unfold count_if_alive. by destruct (is_alive t). }
  unfold at_get, at_put. rewrite Hw, Hb.
  rewrite vec_at_cell_of, bind_Ok by done.
  by rewrite vec_at_put_Ok, bind_Ok by done.
Qed.

Lemma read_cells_newline (rest : list ascii) l (x y : Z) :
  y ≠ 0 → y = width l →
  read_cells (newline :: rest) l x y = read_cells rest l (x + 1) 0.
Proof.
  intros Hy0 Hyw. simpl.
  rewrite bool_decide_eq_false_2 by done. by rewrite bool_decide_eq_true_2.
Qed.

Lemma read_cells_terminator (rest : list ascii) l (x : Z) :
  terminator rest → read_cells rest l x 0 = Ok (l, x).
Proof. by intros [-> | [rest' ->]]. Qed.

(** Reading the characters of one line into row [x] from column [y0]. *)
Lemma read_row_spec r ts : Forall2 parsed r ts →
  ∀ (rest : list ascii) l (x y0 : Z),
  0 ≤ x < height l → 0 ≤ y0 → y0 + Z.of_nat (length ts) ≤ width l →
  Z.of_nat (length (board l)) = (width l + 2) * (height l + 2) →
  ∃ l', read_cells (r ++ rest) l x y0
        = read_cells rest l' x (y0 + Z.of_nat (length ts)) ∧
        height l' = height l ∧ width l' = width l ∧
        generation l' = generation l ∧
        length (board l') = length (board l) ∧
        population l' =
          population l +
          sumZ (λ y, alive01 (cell_of (board l') (phys (width l) x y)))
               (seqZ y0 (Z.of_nat (length ts))) ∧
        (∀ (j : nat) t, ts !! j = Some t →
              board l' !! Z.to_nat (phys (width l) x (y0 + Z.of_nat j)) = Some t) ∧
        (∀ i : nat, (∀ y, y0 ≤ y < y0 + Z.of_nat (length ts) →
                          i ≠ Z.to_nat (phys (width l) x y)) →
                    board l' !! i = board l !! i).
Proof.
  induction 1 as [|c t r ts Hc Hrts IH]; intros rest l x y0 Hx Hy0 Hyn Hlen.
  - exists l. simpl. rewrite Z.add_0_r. unfold sumZ. simpl.
    repeat split; try done; lia.
  - simpl length in *. simpl app.
    pose proof (phys_bounds (height l) (width l) x y0) as Hp.
    rewrite (read_cells_char c t) by (done || lia).
    set (l1 := set_board (count_if_alive t l) _).
    assert (height l1 = height l ∧ width l1 = width l ∧
            generation l1 = generation l ∧
            board l1 = <[Z.to_nat (phys (width l) x y0) := t]> (board l) ∧
            population l1 = population l + alive01 t)
      as (Hh1 & Hw1 & Hg1 & Hb1 & Hp1).
    { unfold l1, count_if_alive, alive01.
      destruct (is_alive t); simpl; repeat split; lia. }
    destruct (IH rest l1 x (y0 + 1))
      as (l' & Hrun & Hh & Hw & Hg & Hl & Hpop & Hnew & Hrest).
    + by rewrite Hh1.
    + lia.
    + rewrite Hw1. lia.
    + by rewrite Hb1, length_insert, Hw1, Hh1.
    + rewrite Hw1 in *.
      assert (board l' !! Z.to_nat (phys (width l) x y0) = Some t) as Hfirst.
      { rewrite Hrest.
        - rewrite Hb1. apply list_lookup_insert_eq. lia.
        - intros y Hy Heq.
          apply Z2Nat.inj in Heq; [| unfold phys; nia | unfold phys; nia].
          apply phys_inj in Heq; lia. }
      exists l'. rewrite Hrun.
      split; [f_equal; lia|]. split; [congruence|]. split; [congruence|].
      split; [congruence|]. split; [by rewrite Hl, Hb1, length_insert|].
      split.
      { rewrite Hpop, Hp1, (seqZ_cons y0) by lia. rewrite sumZ_cons.
        replace (Z.pred (Z.of_nat (S (length ts)))) with (Z.of_nat (length ts)) by lia.
        replace (Z.succ y0) with (y0 + 1) by lia.
        unfold cell_of at 2. rewrite Hfirst. simpl. lia. }
      split.
      * intros [|j] t' Hj; simpl in Hj.
        -- injection Hj as <-. by rewrite Z.add_0_r.
        -- replace (y0 + Z.of_nat (S j)) with (y0 + 1 + Z.of_nat j) by lia.
           by apply Hnew.
      * intros i Hi. rewrite Hrest by (intros y Hy; apply Hi; lia).
        rewrite Hb1. apply list_lookup_insert_ne.
        intros Heq. apply (Hi y0); [lia | done].
Qed.

Lemma render_rows_cons r (rows : list (list ascii)) (rest : list ascii) :
  render_rows (r :: rows) ++ rest = r ++ newline :: (render_rows rows ++ rest).
Proof. unfold render_rows. simpl. by rewrite <- !app_assoc. Qed.

(** Reading the lines of a grid into the rows from [x0] on, whatever
    follows them. *)
Lemma read_rows_then (w : Z) (rows : list (list ascii)) (cells : list (list T)) :
  Forall2 (λ r ts, r ≠ [] ∧ Z.of_nat (length ts) = w ∧ Forall2 parsed r ts)
          rows cells →
  ∀ (rest : list ascii) l (x0 : Z),
  width l = w → 0 ≤ x0 →
  x0 + Z.of_nat (length rows) ≤ height l →
  Z.of_nat (length (board l)) = (width l + 2) * (height l + 2) →
  ∃ l', read_cells (render_rows rows ++ rest) l x0 0
        = read_cells rest l' (x0 + Z.of_nat (length rows)) 0 ∧
        height l' = height l ∧ width l' = width l ∧
        generation l' = generation l ∧
        length (board l') = length (board l) ∧
        population l' =
          population l +
          sumZ (λ x, sumZ (λ y, alive01 (cell_of (board l') (phys w x y)))
                       (seqZ 0 w))
               (seqZ x0 (Z.of_nat (length rows))) ∧
        (∀ (i j : nat) ts t, cells !! i = Some ts → ts !! j = Some t →
              board l' !! Z.to_nat (phys w (x0 + Z.of_nat i) (Z.of_nat j)) = Some t) ∧
        (∀ k : nat, (∀ x y, x0 ≤ x < x0 + Z.of_nat (length rows) → 0 ≤ y < w →
                            k ≠ Z.to_nat (phys w x y)) →
                    board l' !! k = board l !! k).
Proof.
  induction 1 as [|r ts rows cells (Hne & Hlen & Hrts) Hrows IH];
    intros rest l x0 Hw Hx0 Hxm Hsize.
  - exists l. simpl.
    rewrite Z.add_0_r. unfold sumZ. simpl. repeat split; try done; lia.
  - simpl length in *. rewrite render_rows_cons.
    assert (0 < w) as Hwpos.
    { apply Forall2_length in Hrts. destruct r; [done|]. simpl in Hrts. lia. }
    destruct (read_row_spec r ts Hrts (newline :: (render_rows rows ++ rest)) l x0 0)
      as (l1 & Hrun1 & Hh1 & Hw1 & Hg1 & Hl1 & Hp1 & Hnew1 & Hrest1);
      [lia | lia | lia | done |].
    rewrite Hrun1, Z.add_0_l, Hlen.
    rewrite read_cells_newline by lia.
    rewrite Hw in *. rewrite Hlen in *.
    destruct (IH rest l1 (x0 + 1))
      as (l' & Hrun & Hh & Hw' & Hg & Hl & Hp & Hnew & Hrest);
      [done | lia | lia | by rewrite Hl1, Hw1, Hh1 |].
    exists l'. rewrite Hrun.
    split; [f_equal; lia|]. split; [congruence|]. split; [congruence|].
    split; [congruence|]. split; [congruence|].
    assert (∀ y, 0 ≤ y < w →
              board l' !! Z.to_nat (phys w x0 y) = board l1 !! Z.to_nat (phys w x0 y))
      as Hrow0.
    { intros y Hy. apply Hrest. intros x' y' Hx' Hy' Heq.
      apply Z2Nat.inj in Heq; [| unfold phys; nia | unfold phys; nia].
      apply phys_inj in Heq; lia. }
    split.
    { rewrite Hp, Hp1, (seqZ_cons x0) by lia. rewrite sumZ_cons.
      replace (Z.pred (Z.of_nat (S (length rows)))) with (Z.of_nat (length rows)) by lia.
      replace (Z.succ x0) with (x0 + 1) by lia.
      rewrite (sumZ_ext (λ y, alive01 (cell_of (board l1) (phys w x0 y)))
                        (λ y, alive01 (cell_of (board l') (phys w x0 y)))); [lia|].
      intros y Hy. apply elem_of_seqZ in Hy. unfold cell_of.
      by rewrite Hrow0 by lia. }
    split.
    * intros [|i] j ts' t Hi Hj; simpl in Hi.
      -- injection Hi as <-. rewrite Z.add_0_r.
         pose proof (lookup_lt_Some _ _ _ Hj) as Hjlt.
         rewrite Hrow0 by lia.
         specialize (Hnew1 j t Hj). by rewrite Z.add_0_l in Hnew1.
      -- replace (x0 + Z.of_nat (S i)) with (x0 + 1 + Z.of_nat i) by lia.
         by eapply Hnew.
    * intros k Hk. rewrite Hrest by (intros x y Hx Hy; apply Hk; lia).
      apply Hrest1. intros y Hy. apply Hk; lia.
Qed.

(** Reading the lines of a grid into the rows from [x0] on. *)
Lemma read_rows_spec (w : Z) (rows : list (list ascii)) (cells : list (list T)) :
  Forall2 (λ r ts, r ≠ [] ∧ Z.of_nat (length ts) = w ∧ Forall2 parsed r ts)
          rows cells →
  ∀ (rest : list ascii) l (x0 : Z),
  terminator rest → width l = w → 0 ≤ x0 →
  x0 + Z.of_nat (length rows) ≤ height l →
  Z.of_nat (length (board l)) = (width l + 2) * (height l + 2) →
  ∃ l', read_cells (render_rows rows ++ rest) l x0 0
        = Ok (l', x0 + Z.of_nat (length rows)) ∧
        height l' = height l ∧ width l' = width l ∧
        generation l' = generation l ∧
        length (board l') = length (board l) ∧
        population l' =
          population l +
          sumZ (λ x, sumZ (λ y, alive01 (cell_of (board l') (phys w x y)))
                       (seqZ 0 w))
               (seqZ x0 (Z.of_nat (length rows))) ∧
        (∀ (i j : nat) ts t, cells !! i = Some ts → ts !! j = Some t →
              board l' !! Z.to_nat (phys w (x0 + Z.of_nat i) (Z.of_nat j)) = Some t) ∧
        (∀ k : nat, (∀ x y, x0 ≤ x < x0 + Z.of_nat (length rows) → 0 ≤ y < w →
                            k ≠ Z.to_nat (phys w x y)) →
                    board l' !! k = board l !! k).
Proof.
  intros Hrows rest l x0 Hterm Hw Hx0 Hxm Hsize.
  destruct (read_rows_then w rows cells Hrows rest l x0 Hw Hx0 Hxm Hsize)
    as (l' & Hrun & Hrest).
  exists l'. split; [|done]. by rewrite Hrun, read_cells_terminator.
Qed.

(** A frame position is no interior slot. *)
Lemma on_frame_not_phys (h w i x y : Z) :
  on_frame h w i → 0 ≤ x < h → 0 ≤ y < w → i ≠ phys w x y.
Proof.
  intros [_ Hi] Hx Hy ->. rewrite phys_div, phys_mod in Hi by done. lia.
Qed.

(** What the constructor builds from the text of an [h] by [w] grid. *)
Lemma Life_ctor_spec (h w : Z) (rows : list (list ascii)) (cells : list (list T))
      (rest : list ascii) :
  grid_text h w rows cells → terminator rest →
  ∃ l, Life_ctor (render_rows rows ++ rest) h w = Ok l ∧
       height l = h ∧ width l = w ∧ generation l = 0 ∧
       valid l ∧ framed l ∧
       population l = alive_interior l ∧
       (∀ (i j : nat) ts t, cells !! i = Some ts → ts !! j = Some t →
             at_get l (Z.of_nat i) (Z.of_nat j) = Ok t).
Proof.
  intros (Hh & Hw & Hgrid) Hterm. unfold Life_ctor, vec_resize.
  rewrite bool_decide_eq_true_2 by nia. rewrite bind_Ok.
  set (l0 := mkLife h w (replicate _ (of_border true)) 0 0).
  destruct (read_rows_spec w rows cells Hgrid rest l0 0)
    as (l & Hrun & Hhl & Hwl & Hg & Hl & Hp & Hnew & Hrest);
    [done | done | lia | simpl; lia | simpl; rewrite length_replicate; nia |].
  simpl in Hhl, Hwl, Hg, Hl, Hp, Hrest. rewrite length_replicate in Hl.
  rewrite Hrun, bind_Ok. simpl. rewrite Hhl.
  rewrite bool_decide_eq_true_2 by lia.
  exists l. split; [done|]. split; [done|]. split; [done|]. split; [done|].
  split; [unfold valid; rewrite Hhl, Hwl, Hl; lia|].
  split; [|split].
  - intros i Hi. rewrite Hhl, Hwl in Hi. rewrite Hrest.
    + apply lookup_replicate_2. destruct Hi as [Hi _]. lia.
    + intros x y Hx Hy Heq.
      apply (on_frame_not_phys h w i x y); [done | lia | done |].
      destruct Hi as [Hi _]. pose proof (phys_bounds h w x y). lia.
  - rewrite Hp. unfold alive_interior. rewrite Hhl, Hwl, Hh. lia.
  - intros i j ts t Hi Hj. unfold at_get. rewrite Hwl.
    pose proof (Forall2_length _ _ _ Hgrid) as Hlen.
    pose proof (lookup_lt_Some _ _ _ Hi) as Hilt.
    pose proof (lookup_lt_Some _ _ _ Hj) as Hjlt.
    destruct (Forall2_lookup_r _ _ _ _ _ Hgrid Hi) as (r & _ & _ & Hts & _).
    apply vec_at_Ok.
    + unfold phys. nia.
    + specialize (Hnew i j ts t Hi Hj). by rewrite Z.add_0_l in Hnew.
Qed.
(** When the reading loop ends normally having counted as many rows as
    the text has lines, every line has the width of the board. *)
Lemma read_cells_lines (inp : list ascii) : ∀ (cur : list ascii) l (x y : Z) l' x',
  y = Z.of_nat (length cur) →
  read_cells inp l x y = Ok (l', x') →
  height l' = height l ∧
  (x' - x = Z.of_nat (length (lines_from cur inp)) →
   Forall (λ r, Z.of_nat (length r) = width l) (lines_from cur inp)).
Proof.
  induction inp as [|c inp IH]; intros cur l x y l' x' Hy Hrun; simpl in *.
  - injection Hrun as <- <-. split; [done|].
    destruct cur; simpl; [by intros _ | lia].
  - case_bool_decide as Hnl.
    + case_bool_decide as Hy0.
      * injection Hrun as <- <-. split; [done|]. simpl. lia.
      * case_bool_decide as Hyw; [|done].
        destruct (IH [] l (x + 1) 0 l' x' eq_refl Hrun) as [Hh Hlines].
        split; [done|]. simpl. intros Hx.
        apply Forall_cons. split; [lia|]. apply Hlines. lia.
    + destruct (of_char c) as [t|e]; [|done]. rewrite bind_Ok in Hrun.
      destruct (at_get (count_if_alive t l) x y) as [c0|e]; [|done].
      rewrite bind_Ok in Hrun. unfold at_put in Hrun.
      destruct (vec_at_put _ _ t) as [b|e]; [|done]. rewrite !bind_Ok in Hrun.
      destruct (IH (cur ++ [c]) (set_board (count_if_alive t l) b) x (y + 1) l' x')
        as [Hh Hlines]; [|exact Hrun|].
      { rewrite length_app. simpl. lia. }
      assert (height (count_if_alive t l) = height l ∧
              width (count_if_alive t l) = width l) as [Hh1 Hw1].
      { unfold count_if_alive. by destruct (is_alive t). }
      simpl in Hh, Hlines. rewrite Hh1 in Hh. rewrite Hw1 in Hlines. by split.
Qed.

(** Conversely, when the reading loop ends normally having counted as
    many rows as the text has lines, the text is the text of a grid. *)
Lemma read_cells_grid (inp : list ascii) :
  ∀ (cur : list ascii) (cur_cells : list T) l (x y : Z) l' x',
  y = Z.of_nat (length cur) → Forall2 parsed cur cur_cells →
  read_cells inp l x y = Ok (l', x') →
  x' - x = Z.of_nat (length (lines_from cur inp)) →
  ∃ rows cells,
    cur ++ inp = render_rows rows ∧ Z.of_nat (length rows) = x' - x ∧
    Forall2 (λ r ts, r ≠ [] ∧ Z.of_nat (length ts) = width l ∧ Forall2 parsed r ts)
            rows cells.
Proof.
  induction inp as [|c inp IH]; intros cur cur_cells l x y l' x' Hy Hcur Hrun Hx;
    simpl in *.
  - injection Hrun as <- <-. destruct cur; simpl in Hx; [|lia].
    exists [], []. by repeat split.
  - case_bool_decide as Hnl.
    + case_bool_decide as Hy0; [injection Hrun as <- <-; simpl in Hx; lia|].
      case_bool_decide as Hyw; [|done]. simpl in Hx.
      destruct (IH [] [] l (x + 1) 0 l' x' eq_refl (Forall2_nil_2 _ _ parsed) Hrun)
        as (rows & cells & Htext & Hlen & Hgrid); [lia|].
      exists (cur :: rows), (cur_cells :: cells). split; [|split].
      * subst c. simpl in Htext. rewrite Htext. unfold render_rows. simpl.
        by rewrite <- app_assoc.
      * simpl length. lia.
      * apply Forall2_cons. split; [|done].
        split; [destruct cur; [simpl in *; lia | done]|].
        split; [|done]. apply Forall2_length in Hcur. lia.
    + destruct (of_char c) as [t|e] eqn:Hc; [|done]. rewrite bind_Ok in Hrun.
      destruct (at_get (count_if_alive t l) x y) as [c0|e]; [|done].
      rewrite bind_Ok in Hrun. unfold at_put in Hrun.
      destruct (vec_at_put _ _ t) as [b|e]; [|done]. rewrite !bind_Ok in Hrun.
      destruct (IH (cur ++ [c]) (cur_cells ++ [t]) (set_board (count_if_alive t l) b)
                  x (y + 1) l' x') as (rows & cells & Htext & Hlen & Hgrid);
        [rewrite length_app; simpl; lia | | exact Hrun | exact Hx |].
      { apply Forall2_app; [done|]. by apply Forall2_cons. }
      exists rows, cells. split; [by rewrite <- app_assoc in Htext|]. split; [done|].
      assert (width (count_if_alive t l) = width l) as Hw1
        by (unfold count_if_alive; by destruct (is_alive t)).
      simpl in Hgrid. by rewrite Hw1 in Hgrid.
Qed.
End CtorProofs.

(** ** Invariants kept by the step *)

Section StepInvariants.
Context {T : Type} `{CellLike T}.
Implicit Types (l : Life T).

Lemma on_frame_interiorb (h w i : Z) :
  0 ≤ h → 0 ≤ w → 0 ≤ i < (w + 2) * (h + 2) →
  on_frame h w i ↔ interiorb h w i = false.
Proof.
  intros Hh Hw Hi. unfold on_frame, interiorb.
  rewrite bool_decide_eq_false.
  assert (0 ≤ i `mod` (w + 2) < w + 2) by (apply Z.mod_pos_bound; lia).
  assert (0 ≤ i `div` (w + 2)) by (apply Z.div_pos; lia).
  assert (i `div` (w + 2) < h + 2) by (apply Z.div_lt_upper_bound; lia).
  lia.
Qed.

Lemma evolve_all_valid l l' : valid l → evolve_all l = Ok l' → valid l'.
Proof.
  intros Hv Hrun. destruct (evolve_all_spec l Hv) as (l2 & Hrun2 & Hh & Hw & _ & Hb & _).
  rewrite Hrun in Hrun2. injection Hrun2 as <-.
  destruct Hv as (? & ? & ?). unfold valid, step_board in *.
  rewrite Hh, Hw, Hb, length_imap. done.
Qed.

Lemma evolve_all_framed l l' : valid l → framed l → evolve_all l = Ok l' → framed l'.
Proof.
  intros Hv Hf Hrun. destruct (evolve_all_spec l Hv) as (l2 & Hrun2 & Hh & Hw & _ & Hb & _).
  rewrite Hrun in Hrun2. injection Hrun2 as <-.
  intros i Hi. rewrite Hh, Hw in Hi. rewrite Hb.
  destruct Hv as (? & ? & ?).
  rewrite step_board_lookup_other; [by apply Hf|].
  destruct Hi as [Hi Hi']. rewrite Z2Nat.id by lia.
  by apply on_frame_interiorb.
Qed.

(** Any number of steps on a valid, framed board. *)
Lemma evolve_n_spec (n : nat) : ∀ l,
  valid l → framed l →
  ∃ l', evolve_n n l = Ok l' ∧ valid l' ∧ framed l' ∧
        height l' = height l ∧ width l' = width l ∧
        generation l' = generation l + Z.of_nat n.
Proof.
  induction n as [|n IH]; intros l Hv Hf.
  - exists l. simpl. do 3 (split; [done|]). repeat split; lia.
  - simpl. destruct (evolve_all_spec l Hv) as (l1 & Hrun & Hh & Hw & Hg & _ & _).
    rewrite Hrun, bind_Ok.
    destruct (IH l1) as (l' & Hrun' & Hv' & Hf' & Hh' & Hw' & Hg');
      [by eapply evolve_all_valid | by eapply evolve_all_framed |].
    exists l'. do 3 (split; [done|]). repeat split; try congruence. lia.
Qed.

(** With a trivial destructor the destructor call can be left out. *)
Lemma evolve_all_lifetime_trivial l :
  evolve_all_lifetime TrivialDestructor l = evolve_all l.
Proof. reflexivity. Qed.

Lemma evolve_n_lifetime_trivial (n : nat) l :
  evolve_n_lifetime TrivialDestructor n l = evolve_n n l.
Proof.
  revert l. induction n as [|n IH]; intros l; [done|].
  simpl. rewrite evolve_all_lifetime_trivial.
  destruct (evolve_all l) as [l'|e]; [|done]. rewrite !bind_Ok. apply IH.
Qed.

(** With a destructor that is not trivial the first interior cell of a
    valid board is assigned to after its lifetime has ended. *)
Lemma evolve_cell_lifetime_undefined l :
  valid l → 1 ≤ height l → 1 ≤ width l →
  evolve_cell_lifetime NonTrivialDestructor (board l) 0 0 (set_population l 0)
  = Error UndefinedBehaviour.
Proof.
  intros (Hh & Hw & Hlen) Hh1 Hw1.
  pose proof (phys_bounds (height l) (width l) 0 0) as Hp.
  unfold evolve_cell_lifetime, destroy_then_assign, at_get. simpl.
  rewrite vec_at_cell_of, bind_Ok by lia.
  rewrite (read_neighbors_Ok (board l) (height l)), bind_Ok by (done || lia).
  set (new_cell := plus _ _).
  assert (width (count_if_alive new_cell (set_population l 0)) = width l ∧
          board (count_if_alive new_cell (set_population l 0)) = board l) as [-> ->].
  { unfold count_if_alive. by destruct (is_alive new_cell). }
  by rewrite !vec_at_cell_of, !bind_Ok by lia.
Qed.

Lemma evolve_all_lifetime_undefined l :
  valid l → 1 ≤ height l → 1 ≤ width l →
  evolve_all_lifetime NonTrivialDestructor l = Error UndefinedBehaviour.
Proof.
  intros Hv Hh1 Hw1. unfold evolve_all_lifetime. simpl.
  rewrite (seqZ_cons 0 (height l)) by lia. cbn [for_each].
  change (width (set_population l 0)) with (width l).
  rewrite (seqZ_cons 0 (width l)) by lia. cbn [for_each].
  by rewrite evolve_cell_lifetime_undefined.
Qed.
End StepInvariants.

(** ** The properties of the engine *)

Section EngineClaims.
Context {T : Type} `{CellLike T}.
Implicit Types (l : Life T).

(** C1 (what the code does). The loop body of [evolve_all] reads the cell
    and its eight neighbours from the snapshot, then calls the destructor
    of the element and assigns the new cell to it.  The destructors of
    the cell classes are not trivial: on every valid board with an
    interior cell the first assignment, at [(0, 0)], is to an element
    whose lifetime has ended, and the behaviour of the step is undefined.
    For a cell type whose destructor is trivial the step succeeds and is
    the synchronous update: it leaves the pure map [step_board] of the old
    board, in which every interior cell is the rule applied to its old
    value and its eight old neighbours, and every other slot is
    unchanged, whatever the order of the in-place scan. *)
Theorem evolve_all_assigns_to_destroyed_cell l :
  valid l →
  (1 ≤ height l → 1 ≤ width l →
     evolve_cell_lifetime cell_destructor (board l) 0 0 (set_population l 0)
     = Error UndefinedBehaviour ∧
     evolve_all_lifetime cell_destructor l = Error UndefinedBehaviour) ∧
  (∃ l', evolve_all_lifetime TrivialDestructor l = Ok l' ∧
         board l' = step_board (height l) (width l) (board l) ∧
         (∀ x y, 0 ≤ x < height l → 0 ≤ y < width l →
                 at_get l' x y
                 = Ok (plus (cell_of (board l) (phys (width l) x y))
                            (neighbors_of (board l) (width l) x y))) ∧
         (∀ i : nat, interiorb (height l) (width l) (Z.of_nat i) = false →
                     board l' !! i = board l !! i)).
Proof.
  intros Hv. split.
  - intros Hh1 Hw1. unfold cell_destructor.
    split; [by apply evolve_cell_lifetime_undefined
           | by apply evolve_all_lifetime_undefined].
  - rewrite evolve_all_lifetime_trivial.
    destruct (evolve_all_spec l Hv) as (l' & Hrun & Hh & Hw & _ & Hb & _).
    exists l'. split; [done|]. split; [done|].
    destruct Hv as (Hh0 & Hw0 & Hlen). split.
    + intros x y Hx Hy. unfold at_get. rewrite Hw.
      apply vec_at_Ok; [unfold phys; nia|].
      rewrite Hb. by apply (step_board_lookup_interior _ (height l)).
    + intros i Hi. rewrite Hb. by apply step_board_lookup_other.
Qed.

(** The frame across construction and any number of steps: every frame
    position still holds the border cell the constructor filled it with,
    and the interior coordinates the loops address never map to a frame
    position. *)
Lemma frame_kept (h w : Z) (rows : list (list ascii))
      (cells : list (list T)) (rest : list ascii) (n : nat) :
  grid_text h w rows cells → terminator rest →
  (∃ l0 ln, Life_ctor (render_rows rows ++ rest) h w = Ok l0 ∧
            evolve_n n l0 = Ok ln ∧
            ∀ i, on_frame h w i → board ln !! Z.to_nat i = Some (of_border true)) ∧
  (∀ x y, 0 ≤ x < h → 0 ≤ y < w →
          ¬ on_frame h w (phys w x y) ∧
          1 ≤ phys w x y `div` (w + 2) ≤ h ∧ 1 ≤ phys w x y `mod` (w + 2) ≤ w).
Proof.
  intros Hgrid Hterm. split.
  - destruct (Life_ctor_spec h w rows cells rest Hgrid Hterm)
      as (l0 & Hrun & Hh & Hw & _ & Hv & Hf & _).
    destruct (evolve_n_spec n l0 Hv Hf) as (ln & Hrunn & _ & Hfn & Hhn & Hwn & _).
    exists l0, ln. split; [done|]. split; [done|].
    intros i Hi. apply Hfn. by rewrite Hhn, Hwn, Hh, Hw.
  - intros x y Hx Hy. rewrite phys_div, phys_mod by done.
    split; [|lia]. intros Hfr. by eapply on_frame_not_phys.
Qed.

End EngineClaims.

(** ** The accessor and the neighbour order *)

Section AccessClaims.
Context {T : Type} `{CellLike T}.
Implicit Types (l : Life T).

(** The index expression evaluates to the index of the slot exactly when
    nothing overflows; otherwise its behaviour is undefined. *)
Lemma at_index_fits (w x y : Z) :
  index_fits w x y → at_index w x y = Ok (phys w x y).
Proof.
  intros (Ha & Hb & Hc & Hd & He).
  unfold in_int, phys in *. unfold at_index, int_add, int_mul, int_result.
  rewrite (bool_decide_eq_true_2 _ Ha), bind_Ok.
  rewrite (bool_decide_eq_true_2 _ Hb), bind_Ok.
  rewrite (bool_decide_eq_true_2 _ Hc), bind_Ok.
  rewrite (bool_decide_eq_true_2 _ Hd), bind_Ok.
  by rewrite (bool_decide_eq_true_2 _ He).
Qed.

Lemma at_index_overflow (w x y : Z) :
  ¬ index_fits w x y → at_index w x y = Error UndefinedBehaviour.
Proof.
  intros Hno. unfold at_index, int_add, int_mul, int_result.
  destruct (decide (INT_MIN ≤ x + 1 ≤ INT_MAX)) as [Ha|Ha];
    [rewrite (bool_decide_eq_true_2 _ Ha), bind_Ok
    | by rewrite (bool_decide_eq_false_2 _ Ha)].
  destruct (decide (INT_MIN ≤ w + 2 ≤ INT_MAX)) as [Hb|Hb];
    [rewrite (bool_decide_eq_true_2 _ Hb), bind_Ok
    | by rewrite (bool_decide_eq_false_2 _ Hb)].
  destruct (decide (INT_MIN ≤ (x + 1) * (w + 2) ≤ INT_MAX)) as [Hc|Hc];
    [rewrite (bool_decide_eq_true_2 _ Hc), bind_Ok
    | by rewrite (bool_decide_eq_false_2 _ Hc)].
  destruct (decide (INT_MIN ≤ (x + 1) * (w + 2) + y ≤ INT_MAX)) as [Hd|Hd];
    [rewrite (bool_decide_eq_true_2 _ Hd), bind_Ok
    | by rewrite (bool_decide_eq_false_2 _ Hd)].
  destruct (decide (INT_MIN ≤ (x + 1) * (w + 2) + y + 1 ≤ INT_MAX)) as [He|He];
    [|by rewrite (bool_decide_eq_false_2 _ He)].
  by destruct Hno.
Qed.

(** On a board whose size fits an [int], as the argument of [resize] in
    the constructor must, the index of an interior coordinate fits. *)
Lemma index_fits_interior l (x y : Z) :
  valid l → (width l + 2) * (height l + 2) ≤ INT_MAX →
  -1 ≤ x ≤ height l → -1 ≤ y ≤ width l → index_fits (width l) x y.
Proof.
  intros (Hh & Hw & _) Hmax Hx Hy.
  unfold index_fits, in_int, phys, INT_MIN, INT_MAX in *. nia.
Qed.

(** C6 (amended). [at(x, y)] computes the index [(x+1)*(width+2) + y + 1]
    in [int] and checks it against the whole padded storage.  Where the
    computation does not overflow, [at] fails, with an out-of-range error,
    exactly when that index is negative or not below
    [(width+2)*(height+2)]; where it overflows, the behaviour is undefined.
    On a valid board [at] succeeds on every interior coordinate; it fails
    with out-of-range for a row below [-1] or above [height] with a column
    in [0, width) whose index fits; and [at(-1, 0)] does not fail: it
    returns the cell of the top frame row at index 1. *)
Theorem at_bounds_are_physical l (x y : Z) :
  valid l → (width l + 2) * (height l + 2) ≤ INT_MAX →
  (index_fits (width l) x y →
     Life_at l x y = at_get l x y ∧
     (fails (Life_at l x y) ↔
        phys (width l) x y < 0 ∨
        (width l + 2) * (height l + 2) ≤ phys (width l) x y) ∧
     (fails (Life_at l x y) → Life_at l x y = Error OutOfRange)) ∧
  (¬ index_fits (width l) x y → Life_at l x y = Error UndefinedBehaviour) ∧
  (0 ≤ x < height l → 0 ≤ y < width l →
     index_fits (width l) x y ∧
     Life_at l x y = Ok (cell_of (board l) (phys (width l) x y))) ∧
  (0 ≤ y < width l → x < -1 ∨ height l < x → index_fits (width l) x y →
     Life_at l x y = Error OutOfRange) ∧
  Life_at l (-1) 0 = Ok (cell_of (board l) 1) ∧
  (framed l → Life_at l (-1) 0 = Ok (of_border true)).
Proof.
  intros Hv Hmax. pose proof Hv as (Hh & Hw & Hlen).
  assert (∀ x y, index_fits (width l) x y → Life_at l x y = at_get l x y) as Hsame.
  { intros x' y' Hfit. unfold Life_at. by rewrite at_index_fits, bind_Ok. }
  assert (∀ x y, fails (at_get l x y) → at_get l x y = Error OutOfRange) as Hfail.
  { intros x' y' [e He]. unfold at_get, vec_at in *.
    case_bool_decide; [|done]. by destruct (board l !! _). }
  assert (Life_at l (-1) 0 = Ok (cell_of (board l) 1)) as Htop.
  { rewrite Hsame by (apply index_fits_interior; (done || lia)).
    unfold at_get. replace (phys (width l) (-1) 0) with 1 by (unfold phys; lia).
    apply vec_at_cell_of. nia. }
  split; [|split; [|split; [|split; [|split]]]].
  - intros Hfit. rewrite (Hsame x y Hfit). split; [done|]. split; [|apply Hfail].
    rewrite <- Hlen, <- vec_at_Error. split; [apply Hfail|].
    intros Herr. by exists OutOfRange.
  - intros Hno. unfold Life_at. by rewrite at_index_overflow.
  - intros Hx Hy.
    assert (index_fits (width l) x y) as Hfit
      by (apply index_fits_interior; (done || lia)).
    split; [done|]. rewrite (Hsame x y Hfit). unfold at_get. apply vec_at_cell_of.
    pose proof (phys_bounds (height l) (width l) x y). lia.
  - intros Hy Hx Hfit. rewrite (Hsame x y Hfit). unfold at_get.
    apply vec_at_Error. rewrite Hlen. unfold phys. nia.
  - done.
  - intros Hf. rewrite Htop. unfold cell_of. rewrite (Hf 1); [done|].
    split; [nia|]. left. apply Z.div_small. lia.
Qed.
End AccessClaims.

(** C2 (what the code reads). The eight indices [evolve_all] reads around
    [(x, y)] are, as (row, column) offsets from the slot of [(x, y)], in
    the order left, down, right, up, bottom-left, bottom-right, top-right,
    top-left; on the 3 by 3 board of markers, around [(1, 1)], the reads
    return [11; 17; 13; 7; 16; 18; 8; 6] where the documented order up,
    right, down, left, top-right, bottom-right, bottom-left, top-left is
    [7; 13; 17; 11; 8; 18; 16; 6]. *)
Theorem neighbor_order_is_transposed :
  (∀ w x y, neighbor_indices w x y = offset_index w x y <$> scanned_order) ∧
  read_neighbors markers 3 1 1 = Ok [11; 17; 13; 7; 16; 18; 8; 6] ∧
  mapM (vec_index markers) (offset_index 3 1 1 <$> documented_order)
  = Ok [7; 13; 17; 11; 8; 18; 16; 6] ∧
  vec_index markers (phys 3 1 1) = Ok 12.
Proof.
  split; [|by vm_compute].
  intros w x y. unfold neighbor_indices, scanned_order, offset_index. simpl.
  repeat (apply (f_equal2 cons); [lia|]). reflexivity.
Qed.

(** ** The iterator *)

Section IteratorClaims.
Context {T : Type}.
Implicit Types (l : Life T) (it : iterator).

Lemma iter_advance_S l (k : nat) it :
  iter_advance l (S k) it = iter_incr l (iter_advance l k it).
Proof. revert it. induction k as [|k IH]; intros it; [done|]. simpl in *. by rewrite IH. Qed.

(** After [k] increments from [begin()] the iterator is at the [k]-th
    coordinate in row-major order. *)
Lemma iter_advance_begin l (k : nat) :
  1 ≤ width l →
  iter_advance l k (begin_ l)
  = mkIter (Z.of_nat k `div` width l) (Z.of_nat k `mod` width l).
Proof.
  intros Hw. induction k as [|k IH]; [done|].
  rewrite iter_advance_S, IH. unfold iter_incr. simpl.
  pose proof (Z.mod_pos_bound (Z.of_nat k) (width l)) as Hm.
  pose proof (Z.div_mod (Z.of_nat k) (width l)) as Hdm.
  case_bool_decide as Hwrap.
  - f_equal.
    + apply (Z.div_unique_pos _ _ _ 0); lia.
    + apply (Z.mod_unique_pos _ _ (Z.of_nat k `div` width l + 1)); lia.
  - f_equal.
    + apply (Z.div_unique_pos _ _ _ (Z.of_nat k `mod` width l + 1)); lia.
    + apply (Z.mod_unique_pos _ _ (Z.of_nat k `div` width l)); lia.
Qed.

(** C10 (what the code does). On a board with [height ≥ 1] and
    [width ≥ 1], the first [height * width] positions from [begin()] are
    the interior coordinates in row-major order from [(0, 0)], each
    inside the storage; but [height * width] increments lead to
    [(height, 0)], which differs from [end() = (height - 1, width)], and
    no number of increments from [begin()] ever compares equal to
    [end()]. *)
Theorem iterator_never_reaches_end l :
  1 ≤ height l → 1 ≤ width l →
  (∀ k : nat, Z.of_nat k < height l * width l →
     iter_advance l k (begin_ l)
     = mkIter (Z.of_nat k `div` width l) (Z.of_nat k `mod` width l) ∧
     0 ≤ Z.of_nat k `div` width l < height l ∧
     0 ≤ Z.of_nat k `mod` width l < width l) ∧
  iter_advance l (Z.to_nat (height l * width l)) (begin_ l) = mkIter (height l) 0 ∧
  iter_eqb (iter_advance l (Z.to_nat (height l * width l)) (begin_ l)) (end_ l) = false ∧
  (∀ k : nat, iter_eqb (iter_advance l k (begin_ l)) (end_ l) = false).
Proof.
  intros Hh Hw.
  assert (∀ k : nat, iter_eqb (iter_advance l k (begin_ l)) (end_ l) = false) as Hne.
  { intros k. rewrite iter_advance_begin by done. unfold iter_eqb, end_. simpl.
    pose proof (Z.mod_pos_bound (Z.of_nat k) (width l)).
    rewrite (bool_decide_eq_false_2 (_ `mod` _ = _)) by lia.
    apply andb_false_r. }
  split; [|split; [|split]].
  - intros k Hk. split; [by apply iter_advance_begin|].
    split; [|apply Z.mod_pos_bound; lia].
    split; [apply Z.div_pos; lia | apply Z.div_lt_upper_bound; lia].
  - rewrite iter_advance_begin by done. rewrite Z2Nat.id by nia. f_equal.
    + apply Z.div_mul. lia.
    + apply Z.mod_mul. lia.
  - apply Hne.
  - apply Hne.
Qed.
End IteratorClaims.

(** ** Malformed text *)

Section RejectionClaims.
Context {T : Type} `{CellLike T}.
Implicit Types (l : Life T) (r : list ascii).

Lemma fails_bind {A B} (m : result A) (f : A → result B) :
  fails m → fails (m ≫= f).
Proof. intros [e ->]. by exists e. Qed.

(** Reading the characters of a line either fails or reaches the end of
    the line with [y] advanced by its length. *)
Lemma read_row_or_fail r : newline ∉ r →
  ∀ (rest : list ascii) l (x y0 : Z),
  fails (read_cells (r ++ rest) l x y0) ∨
  ∃ l', read_cells (r ++ rest) l x y0 = read_cells rest l' x (y0 + Z.of_nat (length r)) ∧
        width l' = width l.
Proof.
  induction r as [|c r IH]; intros Hnl rest l x y0.
  - right. exists l. simpl. by rewrite Z.add_0_r.
  - apply not_elem_of_cons in Hnl as [Hc Hr]. simpl.
    rewrite bool_decide_eq_false_2 by done.
    destruct (of_char c) as [t|e]; [|left; by exists e]. rewrite bind_Ok.
    destruct (at_get (count_if_alive t l) x y0) as [c0|e]; [|left; by exists e].
    rewrite bind_Ok. unfold at_put.
    destruct (vec_at_put _ _ t) as [b|e]; [|left; by exists e].
    rewrite !bind_Ok.
    destruct (IH Hr rest (set_board (count_if_alive t l) b) x (y0 + 1))
      as [Hf | (l' & Hrun & Hw)]; [by left|].
    right. exists l'. rewrite Hrun. split; [f_equal; lia|].
    rewrite Hw. unfold count_if_alive. by destruct (is_alive t).
Qed.

(** A line ended by a newline whose length differs from the width makes
    the reading loop fail. *)
Lemma read_rows_jagged (w : Z) (rows : list (list ascii)) :
  Forall (λ r, r ≠ [] ∧ newline ∉ r) rows →
  Exists (λ r, Z.of_nat (length r) ≠ w) rows →
  ∀ (rest : list ascii) l (x : Z),
  width l = w → fails (read_cells (render_rows rows ++ rest) l x 0).
Proof.
  induction rows as [|r rows IH]; intros Hrows Hbad rest l x Hw.
  - by apply Exists_nil in Hbad.
  - apply Forall_cons in Hrows as [[Hne Hnl] Hrows].
    rewrite render_rows_cons.
    destruct (read_row_or_fail r Hnl (newline :: (render_rows rows ++ rest)) l x 0)
      as [Hf | (l' & Hrun & Hw')]; [done|].
    rewrite Hrun, Z.add_0_l. simpl.
    assert (Z.of_nat (length r) ≠ 0) by (destruct r; [done | simpl; lia]).
    rewrite bool_decide_eq_false_2 by done.
    case_bool_decide as Hlen; [|by exists AssertionFailed].
    apply IH; [done | | congruence].
    apply Exists_cons in Hbad as [Hbad | Hbad]; [|done].
    congruence.
Qed.

(** Reading the characters of a line either fails, whatever follows the
    line, or reaches the end of the line. *)
Lemma read_row_prefix r : newline ∉ r →
  ∀ l (x y0 : Z),
  (∃ e, ∀ rest : list ascii, read_cells (r ++ rest) l x y0 = Error e) ∨
  (∃ l', width l' = width l ∧
         ∀ rest : list ascii,
           read_cells (r ++ rest) l x y0
           = read_cells rest l' x (y0 + Z.of_nat (length r))).
Proof.
  induction r as [|c r IH]; intros Hnl l x y0.
  - right. exists l. split; [done|]. intros rest. simpl. by rewrite Z.add_0_r.
  - apply not_elem_of_cons in Hnl as [Hc Hr]. simpl.
    rewrite bool_decide_eq_false_2 by done.
    destruct (of_char c) as [t|e]; [|left; by exists e].
    setoid_rewrite bind_Ok.
    destruct (at_get (count_if_alive t l) x y0) as [c0|e]; [|left; by exists e].
    setoid_rewrite bind_Ok. unfold at_put.
    destruct (vec_at_put _ _ t) as [b|e]; [|left; by exists e].
    repeat setoid_rewrite bind_Ok.
    destruct (IH Hr (set_board (count_if_alive t l) b) x (y0 + 1))
      as [[e He] | (l' & Hw & Hrun)]; [left; by exists e|].
    right. exists l'. split.
    + rewrite Hw. unfold count_if_alive. by destruct (is_alive t).
    + intros rest. rewrite Hrun. f_equal. lia.
Qed.

(** Reading non-empty lines either fails, whatever follows them, or
    reaches the start of the next line. *)
Lemma read_rows_prefix (rows : list (list ascii)) :
  Forall (λ r, r ≠ [] ∧ newline ∉ r) rows →
  ∀ l (x : Z),
  (∃ e, ∀ rest : list ascii,
          read_cells (render_rows rows ++ rest) l x 0 = Error e) ∨
  (∃ l' x', ∀ rest : list ascii,
              read_cells (render_rows rows ++ rest) l x 0 = read_cells rest l' x' 0).
Proof.
  induction 1 as [|r rows [Hne Hnl] _ IH]; intros l x.
  - right. by exists l, x.
  - destruct (read_row_prefix r Hnl l x 0) as [[e He] | (l' & Hw & Hrun)].
    + left. exists e. intros rest. by rewrite render_rows_cons, He.
    + assert (Z.of_nat (length r) ≠ 0) by (destruct r; [done | simpl; lia]).
      destruct (decide (Z.of_nat (length r) = width l')) as [Hlen|Hlen].
      * destruct (IH l' (x + 1)) as [[e He] | (l'' & x'' & Hrun')].
        -- left. exists e. intros rest.
           rewrite render_rows_cons, Hrun, Z.add_0_l. simpl.
           rewrite bool_decide_eq_false_2 by done.
           by rewrite bool_decide_eq_true_2 by done.
        -- right. exists l'', x''. intros rest.
           rewrite render_rows_cons, Hrun, Z.add_0_l. simpl.
           rewrite bool_decide_eq_false_2 by done.
           by rewrite bool_decide_eq_true_2 by done.
      * left. exists AssertionFailed. intros rest.
        rewrite render_rows_cons, Hrun, Z.add_0_l. simpl.
        rewrite bool_decide_eq_false_2 by done.
        by rewrite bool_decide_eq_false_2 by done.
Qed.

(** The scan of the dimension-inferring constructor never fails on
    characters the cell constructor accepts. *)
Lemma scan_cells_total (border_temp : nat → T) (inp : list ascii) :
  Forall (λ c, c = newline ∨ ∃ t, of_char c = Ok t) inp →
  ∀ s, ∃ s', scan_cells border_temp inp s = Ok s'.
Proof.
  induction 1 as [|c inp Hc Hinp IH]; intros s; simpl.
  - destruct (last_char_was_newline s); eauto.
  - case_bool_decide as Hnl.
    + destruct (last_char_was_newline s); eauto.
    + destruct Hc as [? | [t Ht]]; [done|]. rewrite Ht, bind_Ok. apply IH.
Qed.

End RejectionClaims.

(** ** The cell classes *)

(** C4. Under the Conway rule as the specification gives it, an interior
    cell evolves to an alive cell iff it is alive with exactly 2 or 3 alive
    neighbours or dead with exactly 3, a border neighbour never counting
    as alive; and a border cell evolves to itself: still a border cell,
    dead if it was dead. *)
Theorem ConwayCell_evolve_rule (c : Cells.ConwayCell) (neighbors : list Cells.Cell) :
  (Cells.is_border (Cells.conway_base c) = false →
     (Cells.Cell_is_alive (Cells.ConwayCell_evolve c neighbors) = true ↔
        (Cells.is_alive (Cells.conway_base c) = true ∧
           (Cells.alive_among neighbors = 2%nat ∨ Cells.alive_among neighbors = 3%nat)) ∨
        (Cells.is_alive (Cells.conway_base c) = false ∧ Cells.alive_among neighbors = 3%nat))) ∧
  (Cells.is_border (Cells.conway_base c) = true →
     Cells.ConwayCell_evolve c neighbors = Cells.Cell_of_object (Cells.ConwayObject c) ∧
     Cells.Cell_is_border (Cells.ConwayCell_evolve c neighbors) = true ∧
     Cells.Cell_is_alive (Cells.ConwayCell_evolve c neighbors) = Cells.is_alive (Cells.conway_base c)) ∧
  (∀ n : Cells.Cell,
     Cells.alive_among (n :: neighbors) =
       if Cells.Cell_is_alive n && negb (Cells.Cell_is_border n)
       then S (Cells.alive_among neighbors) else Cells.alive_among neighbors).
Proof.
  split; [|split].
  - intros Hb. unfold Cells.ConwayCell_evolve, Cells.conway_rule. rewrite Hb.
    destruct (Cells.is_alive (Cells.conway_base c)) eqn:Ha;
      unfold Cells.Cell_is_alive, Cells.is_alive; simpl; rewrite bool_decide_eq_true.
    + split; [by left | by intros [[_ ?] | [? _]]].
    + split; [by right | by intros [[? _] | [_ ?]]].
  - intros Hb. unfold Cells.ConwayCell_evolve, Cells.conway_rule. by rewrite Hb.
  - intros n. unfold Cells.alive_among. rewrite filter_cons.
    destruct (Cells.Cell_is_alive n && negb (Cells.Cell_is_border n)); by case_decide.
Qed.



(** ** The claims on concrete boards *)

Lemma blinker_grid_text : grid_text 3 3 blinker_rows blinker_cells.
Proof.
  split; [reflexivity|]. split; [lia|].
  repeat (apply Forall2_cons; split;
          [split; [done|]; split; [reflexivity|];
           repeat (apply Forall2_cons; split; [by split|]); apply Forall2_nil_2|]).
  apply Forall2_nil_2.
Qed.

Lemma blinker_valid : valid blinker.
Proof. unfold valid. simpl. lia. Qed.

Lemma single_cell_valid : valid single_cell.
Proof. unfold valid. simpl. lia. Qed.

Lemma evolve_all_assigns_to_destroyed_cell_witness :
  valid blinker ∧ 1 ≤ height blinker ∧ 1 ≤ width blinker ∧
  evolve_all_lifetime cell_destructor blinker = Error UndefinedBehaviour ∧
  ∃ l', evolve_all_lifetime TrivialDestructor blinker = Ok l' ∧
        board l' = step_board 3 3 (board blinker).
Proof.
  assert (1 ≤ height blinker) as Hh by (simpl; lia).
  assert (1 ≤ width blinker) as Hw by (simpl; lia).
  split; [exact blinker_valid|]. split; [exact Hh|]. split; [exact Hw|].
  destruct (evolve_all_assigns_to_destroyed_cell blinker blinker_valid)
    as (Hub & l' & Hrun & Hb & _).
  split; [exact (proj2 (Hub Hh Hw))|].
  exists l'. by split.
Defined.


Lemma pair_board_valid : valid pair_board.
Proof. unfold valid. simpl. lia. Qed.

Lemma at_bounds_are_physical_witness :
  valid pair_board ∧
  (width pair_board + 2) * (height pair_board + 2) ≤ INT_MAX ∧
  Life_at pair_board (-1) 0 = Ok conway_border ∧
  Life_at pair_board 0 1 = Ok conway_dead ∧
  index_fits (width pair_board) (-2) 0 ∧
  Life_at pair_board (-2) 0 = Error OutOfRange ∧
  ¬ index_fits (width pair_board) (-1073741825) 0 ∧
  Life_at pair_board (-1073741825) 0 = Error UndefinedBehaviour.
Proof.
  assert ((width pair_board + 2) * (height pair_board + 2) ≤ INT_MAX) as Hmax
    by (vm_compute; discriminate).
  assert (index_fits (width pair_board) (-2) 0) as Hfit
    by (repeat split; vm_compute; discriminate).
  assert (¬ index_fits (width pair_board) (-1073741825) 0) as Hno.
  { intros (_ & _ & [Hc _] & _). vm_compute in Hc. by apply Hc. }
  split; [exact pair_board_valid|]. split; [exact Hmax|].
  split; [|split; [|split; [exact Hfit|split; [|split; [exact Hno|]]]]].
  - exact (proj1 (proj2 (proj2 (proj2 (proj2
             (at_bounds_are_physical pair_board (-1) 0 pair_board_valid Hmax)))))).
  - refine (proj2 (proj1 (proj2 (proj2
              (at_bounds_are_physical pair_board 0 1 pair_board_valid Hmax))) _ _));
      simpl; lia.
  - refine (proj1 (proj2 (proj2 (proj2
              (at_bounds_are_physical pair_board (-2) 0 pair_board_valid Hmax)))) _ _ Hfit);
      simpl; lia.
  - exact (proj1 (proj2
             (at_bounds_are_physical pair_board (-1073741825) 0 pair_board_valid Hmax))
             Hno).
Defined.

Lemma iterator_never_reaches_end_witness :
  1 ≤ height blinker ∧ 1 ≤ width blinker ∧
  iter_advance blinker (Z.to_nat (height blinker * width blinker)) (begin_ blinker)
  = mkIter (height blinker) 0 ∧
  ∀ k : nat, iter_eqb (iter_advance blinker k (begin_ blinker)) (end_ blinker) = false.
Proof.
  assert (1 ≤ height blinker) as Hh by (simpl; lia).
  assert (1 ≤ width blinker) as Hw by (simpl; lia).
  split; [exact Hh|]. split; [exact Hw|].
  destruct (iterator_never_reaches_end blinker Hh Hw) as (_ & Hlast & _ & Hne).
  by split.
Defined.


Lemma ConwayCell_evolve_rule_witness :
  Cells.is_border (Cells.conway_base conway_alive) = false ∧
  Cells.is_border (Cells.conway_base conway_dead) = false ∧
  Cells.is_border (Cells.conway_base conway_border) = true ∧
  length two_alive = 8%nat ∧ Cells.alive_among two_alive = 2%nat ∧
  length three_alive = 8%nat ∧ Cells.alive_among three_alive = 3%nat ∧
  length four_alive = 8%nat ∧ Cells.alive_among four_alive = 4%nat ∧
  Cells.Cell_is_alive (Cells.ConwayCell_evolve conway_alive two_alive) = true ∧
  Cells.Cell_is_alive (Cells.ConwayCell_evolve conway_alive three_alive) = true ∧
  Cells.Cell_is_alive (Cells.ConwayCell_evolve conway_alive four_alive) ≠ true ∧
  Cells.Cell_is_alive (Cells.ConwayCell_evolve conway_dead three_alive) = true ∧
  Cells.Cell_is_alive (Cells.ConwayCell_evolve conway_dead two_alive) ≠ true ∧
  Cells.Cell_is_alive (Cells.ConwayCell_evolve conway_dead four_alive) ≠ true ∧
  Cells.ConwayCell_evolve conway_border three_alive =
    Cells.Cell_of_object (Cells.ConwayObject conway_border) ∧
  Cells.Cell_is_alive (Cells.ConwayCell_evolve conway_border three_alive) = false.
Proof.
  assert (Cells.is_border (Cells.conway_base conway_alive) = false) as Ha
    by reflexivity.
  assert (Cells.is_border (Cells.conway_base conway_dead) = false) as Hd
    by reflexivity.
  assert (Cells.is_border (Cells.conway_base conway_border) = true) as Hb
    by reflexivity.
  split; [exact Ha|]. split; [exact Hd|]. split; [exact Hb|].
  do 6 (split; [reflexivity|]).
  split; [|split; [|split; [|split; [|split; [|split]]]]].
  - apply (proj1 (ConwayCell_evolve_rule conway_alive two_alive) Ha).
    left. split; [reflexivity | left; reflexivity].
  - apply (proj1 (ConwayCell_evolve_rule conway_alive three_alive) Ha).
    left. split; [reflexivity | right; reflexivity].
  - intros Halive.
    apply (proj1 (ConwayCell_evolve_rule conway_alive four_alive) Ha) in Halive.
    destruct Halive as [[_ [H4 | H4]] | [H4 _]]; discriminate H4.
  - apply (proj1 (ConwayCell_evolve_rule conway_dead three_alive) Hd).
    right. split; reflexivity.
  - intros Halive.
    apply (proj1 (ConwayCell_evolve_rule conway_dead two_alive) Hd) in Halive.
    destruct Halive as [[H2 _] | [_ H2]]; discriminate H2.
  - intros Halive.
    apply (proj1 (ConwayCell_evolve_rule conway_dead four_alive) Hd) in Halive.
    destruct Halive as [[H4 _] | [_ H4]]; discriminate H4.
  - destruct (proj1 (proj2 (ConwayCell_evolve_rule conway_border three_alive)) Hb)
      as (Hsame & _ & Halive).
    split; [exact Hsame | exact Halive].
Defined.



(** C6, the claim as stated fails: on the one-cell board, [at(-1, 0)] is
    outside the interior and returns the border cell at index 1. *)
Lemma at_minus_one_returns_border :
  Life_ctor [ "*"; newline ]%char 1 1 = Ok single_cell ∧
  Life_at single_cell (-1) 0 = Ok conway_border ∧
  ¬ (∀ x y, ¬ (0 ≤ x < height single_cell ∧ 0 ≤ y < width single_cell) →
            fails (Life_at single_cell x y)).
Proof.
  split; [reflexivity|]. split; [by vm_compute|].
  intros Hall. destruct (Hall (-1) 0) as [e He]; [simpl; lia|].
  vm_compute in He. discriminate He.
Qed.




(** * Further properties of the code *)

(** ** The iterator, both ways *)

Section IteratorMore.
Context {T : Type} `{CellLike T}.
Implicit Types (l : Life T) (it : iterator).

(** The position number [n] in row-major order. *)
Lemma iter_incr_position l (n : Z) :
  1 ≤ width l →
  iter_incr l (mkIter (n `div` width l) (n `mod` width l))
  = mkIter ((n + 1) `div` width l) ((n + 1) `mod` width l).
Proof.
  intros Hw. unfold iter_incr. simpl.
  pose proof (Z.mod_pos_bound n (width l)) as Hm.
  pose proof (Z.div_mod n (width l)) as Hdm.
  case_bool_decide as Hwrap.
  - f_equal.
    + apply (Z.div_unique_pos _ _ _ 0); lia.
    + apply (Z.mod_unique_pos _ _ (n `div` width l + 1)); lia.
  - f_equal.
    + apply (Z.div_unique_pos _ _ _ (n `mod` width l + 1)); lia.
    + apply (Z.mod_unique_pos _ _ (n `div` width l)); lia.
Qed.

Lemma iter_decr_incr l it :
  1 ≤ width l → 0 ≤ it_y it < width l → iter_decr l (iter_incr l it) = it.
Proof.
  intros Hw Hy. destruct it as [x y]. simpl in Hy.
  unfold iter_incr, iter_decr.
  repeat case_bool_decide; simpl in *; f_equal; lia.
Qed.

(** X1. On a column inside the interior, [operator--] undoes [operator++]
    and [operator++] undoes [operator--], also across the end of a row. *)
Theorem iter_incr_decr_inverse l it :
  1 ≤ width l → 0 ≤ it_y it < width l →
  iter_decr l (iter_incr l it) = it ∧ iter_incr l (iter_decr l it) = it.
Proof.
  intros Hw Hy. split; [by apply iter_decr_incr|].
  destruct it as [x y]. simpl in Hy. unfold iter_incr, iter_decr.
  repeat case_bool_decide; simpl in *; f_equal; lia.
Qed.

Lemma iter_decr_position l (n : Z) :
  1 ≤ width l →
  iter_decr l (mkIter (n `div` width l) (n `mod` width l))
  = mkIter ((n - 1) `div` width l) ((n - 1) `mod` width l).
Proof.
  intros Hw.
  replace n with (n - 1 + 1) at 1 2 by lia.
  rewrite <- iter_incr_position by done.
  apply iter_decr_incr; [done|]. simpl. apply Z.mod_pos_bound. lia.
Qed.

Lemma iter_retreat_position l (k : nat) : ∀ n : Z,
  1 ≤ width l →
  iter_retreat l k (mkIter (n `div` width l) (n `mod` width l))
  = mkIter ((n - Z.of_nat k) `div` width l) ((n - Z.of_nat k) `mod` width l).
Proof.
  induction k as [|k IH]; intros n Hw.
  - simpl. by rewrite Z.sub_0_r.
  - simpl iter_retreat. rewrite iter_decr_position, IH by done.
    by replace (n - 1 - Z.of_nat k) with (n - Z.of_nat (S k)) by lia.
Qed.

(** X2. Backwards from [end()]: one [operator--] leads to the last interior
    cell [(height - 1, width - 1)], [k + 1] of them to the interior cell
    number [height * width - 1 - k] in row-major order, and
    [height * width] of them to [begin()]. *)
Theorem iter_retreat_from_end l (k : nat) :
  1 ≤ height l → 1 ≤ width l → Z.of_nat k < height l * width l →
  iter_decr l (end_ l) = mkIter (height l - 1) (width l - 1) ∧
  iter_retreat l (S k) (end_ l)
  = mkIter ((height l * width l - 1 - Z.of_nat k) `div` width l)
           ((height l * width l - 1 - Z.of_nat k) `mod` width l) ∧
  0 ≤ (height l * width l - 1 - Z.of_nat k) `div` width l < height l ∧
  iter_retreat l (Z.to_nat (height l * width l)) (end_ l) = begin_ l.
Proof.
  intros Hh Hw Hk.
  assert (iter_decr l (end_ l) = mkIter (height l - 1) (width l - 1)) as Hlast.
  { unfold iter_decr, end_. simpl. by rewrite bool_decide_eq_false_2 by lia. }
  assert (mkIter (height l - 1) (width l - 1)
          = mkIter ((height l * width l - 1) `div` width l)
                   ((height l * width l - 1) `mod` width l)) as Hpos.
  { f_equal.
    - apply (Z.div_unique_pos _ _ _ (width l - 1)); lia.
    - apply (Z.mod_unique_pos _ _ (height l - 1)); lia. }
  assert (∀ j : nat, iter_retreat l (S j) (end_ l)
          = mkIter ((height l * width l - 1 - Z.of_nat j) `div` width l)
                   ((height l * width l - 1 - Z.of_nat j) `mod` width l)) as Hall.
  { intros j. simpl iter_retreat. rewrite Hlast, Hpos.
    by apply iter_retreat_position. }
  split; [done|]. split; [apply Hall|]. split.
  - split; [apply Z.div_pos; lia | apply Z.div_lt_upper_bound; nia].
  - destruct (Z.to_nat (height l * width l)) as [|j] eqn:Hj; [nia|].
    rewrite Hall.
    replace (height l * width l - 1 - Z.of_nat j) with 0 by lia.
    unfold begin_. by rewrite Z.div_0_l, Z.mod_0_l by lia.
Qed.

End IteratorMore.

(** ** Many steps, small boards, single cells *)

Section StepMore.
Context {T : Type} `{CellLike T}.
Implicit Types (l : Life T).

Lemma sumZ_bounds (f : Z → Z) (c : Z) (idx : list Z) :
  (∀ i, i ∈ idx → 0 ≤ f i ≤ c) → 0 ≤ sumZ f idx ≤ c * Z.of_nat (length idx).
Proof.
  induction idx as [|i idx IH]; intros Hf.
  - unfold sumZ. simpl. lia.
  - rewrite sumZ_cons. simpl length.
    assert (0 ≤ f i ≤ c) by (apply Hf; by left).
    assert (0 ≤ sumZ f idx ≤ c * Z.of_nat (length idx))
      by (apply IH; intros; apply Hf; by right).
    lia.
Qed.

Lemma alive_interior_bounds l :
  0 ≤ height l → 0 ≤ width l → 0 ≤ alive_interior l ≤ height l * width l.
Proof.
  intros Hh Hw. unfold alive_interior.
  pose proof (sumZ_bounds
    (λ x, sumZ (λ y, alive01 (cell_of (board l) (phys (width l) x y)))
               (seqZ 0 (width l))) (width l) (seqZ 0 (height l))) as Hb.
  rewrite length_seqZ, Z2Nat.id in Hb by lia.
  rewrite (Z.mul_comm (height l)). apply Hb. intros x _.
  pose proof (sumZ_bounds
    (λ y, alive01 (cell_of (board l) (phys (width l) x y))) 1 (seqZ 0 (width l))) as Hr.
  rewrite length_seqZ, Z2Nat.id in Hr by lia.
  rewrite Z.mul_1_l in Hr. apply Hr. intros y _.
  unfold alive01. destruct (is_alive _); lia.
Qed.

(** X4. For a cell type with a trivial destructor, [n] calls of
    [evolve_all] on a valid board succeed and leave the [n]-fold iterate of
    the pure step on the board, dimensions unchanged, [generation] advanced
    by [n] and, for [n ≥ 1], [population] equal to the number of alive
    interior cells.  With the destructor of the cell classes, one or more
    calls on a valid board with an interior cell have undefined behaviour:
    the first call has. *)
Theorem evolve_n_iterates_step (n : nat) : ∀ l,
  valid l →
  (∃ l', evolve_n_lifetime TrivialDestructor n l = Ok l' ∧ valid l' ∧
         height l' = height l ∧ width l' = width l ∧
         board l' = Nat.iter n (step_board (height l) (width l)) (board l) ∧
         generation l' = generation l + Z.of_nat n ∧
         (n ≠ 0%nat → population l' = alive_interior l')) ∧
  (n ≠ 0%nat → 1 ≤ height l → 1 ≤ width l →
     evolve_n_lifetime cell_destructor n l = Error UndefinedBehaviour).
Proof.
  intros l Hv. split.
  - rewrite evolve_n_lifetime_trivial. revert l Hv.
    induction n as [|n IH]; intros l Hv.
    + exists l. simpl. do 4 (split; [done|]). split; [done|]. split; [lia | done].
    + simpl evolve_n.
      destruct (evolve_all_spec l Hv) as (l1 & Hrun & Hh & Hw & Hg & Hb & Hp).
      rewrite Hrun, bind_Ok.
      assert (valid l1) as Hv1 by (by eapply evolve_all_valid).
      destruct (IH l1 Hv1) as (l' & Hrun' & Hv' & Hh' & Hw' & Hb' & Hg' & Hp').
      exists l'. split; [done|]. split; [done|].
      split; [congruence|]. split; [congruence|]. split.
      * rewrite Hb', Hh, Hw, Hb. symmetry. apply Nat.iter_succ_r.
      * split; [lia|]. intros _. destruct n as [|n]; [|by apply Hp'].
        simpl in Hrun'. injection Hrun' as <-. done.
  - intros Hn Hh1 Hw1. destruct n as [|n]; [done|].
    unfold cell_destructor. simpl.
    by rewrite evolve_all_lifetime_undefined.
Qed.

(** X5. A step on a valid board without interior cells ([height] or
    [width] is 0) leaves the storage as it is, sets [population] to 0 and
    adds 1 to [generation]. *)
Theorem evolve_all_empty_interior l :
  valid l → height l = 0 ∨ width l = 0 →
  evolve_all l = Ok (mkLife (height l) (width l) (board l) (generation l + 1) 0).
Proof.
  intros Hv Hempty.
  destruct (evolve_all_spec l Hv) as (l' & Hrun & Hh & Hw & Hg & Hstep & Hp).
  rewrite Hrun. f_equal.
  assert (board l' = board l) as Hb.
  { apply list_eq. intros i. rewrite Hstep. apply step_board_lookup_other.
    unfold interiorb.
    apply bool_decide_eq_false_2. destruct Hv as (Hh0 & Hw0 & _). lia. }
  assert (population l' = 0) as Hp0.
  { pose proof (alive_interior_bounds l') as Hbd. destruct Hv as (Hh0 & Hw0 & _).
    rewrite Hh, Hw in Hbd. nia. }
  clear Hstep Hp Hrun. destruct l' as [h' w' b' g' p']. simpl in *.
  by rewrite Hh, Hw, Hb, Hg, Hp0.
Qed.

(** X6. After a step on a valid board [population] lies between 0 and
    [height * width]. *)
Theorem population_within_interior l l' :
  valid l → evolve_all l = Ok l' →
  0 ≤ population l' ≤ height l * width l.
Proof.
  intros Hv Hrun.
  destruct (evolve_all_spec l Hv) as (l2 & Hrun2 & Hh & Hw & _ & _ & Hp).
  rewrite Hrun in Hrun2. injection Hrun2 as <-.
  rewrite Hp, <- Hh, <- Hw. destruct Hv as (Hh0 & Hw0 & _).
  apply alive_interior_bounds; lia.
Qed.

(** X7. Assigning through [at(x, y)] at an interior coordinate of a valid
    board succeeds; the cell is read back at [(x, y)], every other
    interior coordinate and every frame position keep their cell, and the
    dimensions and counters are unchanged. *)
Theorem at_put_then_at_get l (x y : Z) (c : T) :
  valid l → 0 ≤ x < height l → 0 ≤ y < width l →
  ∃ l', at_put l x y c = Ok l' ∧ valid l' ∧
        height l' = height l ∧ width l' = width l ∧
        generation l' = generation l ∧ population l' = population l ∧
        at_get l' x y = Ok c ∧
        (∀ x' y', 0 ≤ x' < height l → 0 ≤ y' < width l → (x', y') ≠ (x, y) →
                  at_get l' x' y' = at_get l x' y') ∧
        (∀ i, on_frame (height l) (width l) i →
              board l' !! Z.to_nat i = board l !! Z.to_nat i).
Proof.
  intros (Hh & Hw & Hlen) Hx Hy.
  pose proof (phys_bounds (height l) (width l) x y Hx Hy) as Hp.
  unfold at_put. rewrite vec_at_put_Ok, bind_Ok by lia.
  eexists. split; [done|]. simpl.
  split; [unfold valid; simpl; rewrite length_insert; lia|].
  do 4 (split; [done|]). split; [|split].
  - unfold at_get. simpl. apply vec_at_Ok; [lia|].
    apply list_lookup_insert_eq. lia.
  - intros x' y' Hx' Hy' Hne. unfold at_get. simpl. unfold vec_at.
    rewrite list_lookup_insert_ne; [done|].
    intros Heq. apply Hne.
    pose proof (phys_bounds (height l) (width l) x' y' Hx' Hy').
    apply Z2Nat.inj in Heq; [|lia|lia].
    apply phys_inj in Heq; [|done|done]. destruct Heq. by subst.
  - intros i Hi. apply list_lookup_insert_ne. intros Heq.
    apply (on_frame_not_phys (height l) (width l) i x y Hi Hx Hy).
    destruct Hi as [Hi _]. lia.
Qed.
End StepMore.

(** ** The step of the middle revision *)

Section CheckedStep.
Context {T : Type} `{CellLike T}.
Implicit Types (l : Life T) (P : Prop).

Lemma same_success_refl {A} P (r : result A) :
  (P → r ≠ Error UndefinedBehaviour) → same_success P r r.
Proof. by split. Qed.

Lemma same_success_bind {A B} P (m1 m2 : result A) (f1 f2 : A → result B) :
  same_success P m1 m2 → (∀ a, same_success P (f1 a) (f2 a)) →
  same_success P (m1 ≫= f1) (m2 ≫= f2).
Proof.
  intros [Hm Hub] Hf. destruct m2 as [a|e].
  - rewrite (proj2 (Hm a) eq_refl). rewrite !bind_Ok. apply Hf.
  - destruct m1 as [a|e'].
    + by pose proof (proj1 (Hm a) eq_refl).
    + split; [by intros b; split|]. intros HP Heq. injection Heq as ->.
      by apply Hub.
Qed.

Lemma vec_at_no_ub (v : list T) (i : Z) : vec_at v i ≠ Error UndefinedBehaviour.
Proof. unfold vec_at. case_bool_decide; [|done]. by destruct (v !! Z.to_nat i). Qed.

Lemma same_success_vec P (v : list T) (i : Z) :
  same_success P (vec_index v i) (vec_at v i).
Proof.
  split; [|intros _; apply vec_at_no_ub].
  unfold vec_index, vec_at.
  case_bool_decide; [|done]. by destruct (v !! Z.to_nat i).
Qed.

Lemma same_success_for_each {S} P (idx : list Z) (body1 body2 : Z → S → result S) :
  (∀ i s, same_success P (body1 i s) (body2 i s)) →
  ∀ s, same_success P (for_each idx body1 s) (for_each idx body2 s).
Proof.
  intros Hbody. induction idx as [|i idx IH]; intros s; simpl.
  - by split.
  - by apply same_success_bind.
Qed.

(** With a trivial destructor, destroying and assigning has no undefined
    behaviour. *)
Lemma destroy_then_assign_no_ub l (x y : Z) (c : T) :
  destroy_then_assign TrivialDestructor l x y c ≠ Error UndefinedBehaviour.
Proof.
  unfold destroy_then_assign. destruct (at_get l x y) as [c0|e] eqn:Hat.
  - rewrite bind_Ok. unfold at_put, vec_at_put. by case_bool_decide.
  - intros Heq. injection Heq as ->. by apply (vec_at_no_ub _ _ Hat).
Qed.

Lemma same_success_cell (dtor : destructor) (plus_vector : T → list T → T)
      (tb : list T) (x y : Z) l :
  (∀ c ns, plus_vector c ns = plus c ns) →
  same_success (dtor = TrivialDestructor)
    (evolve_cell_lifetime dtor tb x y l)
    (evolve_cell_checked dtor plus_vector tb x y l).
Proof.
  intros Hplus. unfold evolve_cell_lifetime, evolve_cell_checked.
  apply same_success_bind; [apply same_success_refl; intros _; apply vec_at_no_ub|].
  intros cell. apply same_success_bind.
  - unfold read_neighbors, read_neighbors_checked.
    repeat (apply same_success_bind; [apply same_success_vec|]; intros ?).
    by split.
  - intros ns. rewrite Hplus. apply same_success_refl.
    intros ->. apply destroy_then_assign_no_ub.
Qed.

(** Without interior cells the loops have no iteration. *)
Lemma for_each_no_columns (idx : list Z) (body : Z → Z → Life T → result (Life T)) l :
  width l = 0 →
  for_each idx (λ x l0, for_each (seqZ 0 (width l0)) (body x) l0) l = Ok l.
Proof.
  intros Hw. induction idx as [|i idx IH]; [done|].
  simpl. rewrite Hw. simpl. by rewrite IH.
Qed.

Lemma evolve_all_lifetime_empty (dtor : destructor) l :
  height l = 0 ∨ width l = 0 →
  evolve_all_lifetime dtor l
  = Ok (mkLife (height l) (width l) (board l) (generation l + 1) 0).
Proof.
  intros Hempty. unfold evolve_all_lifetime. simpl.
  destruct Hempty as [Hh | Hw].
  - by replace (seqZ 0 (height l)) with (@nil Z) by (by rewrite Hh).
  - by rewrite for_each_no_columns.
Qed.

Lemma read_neighbors_checked_Ok (b : list T) (h w x y : Z) :
  0 ≤ x < h → 0 ≤ y < w → Z.of_nat (length b) = (w + 2) * (h + 2) →
  read_neighbors_checked b w x y = Ok (neighbors_of b w x y).
Proof.
  intros Hx Hy Hlen. unfold read_neighbors_checked, neighbors_of, neighbor_indices.
  rewrite (Z.mul_comm (w + 2)) in Hlen.
  repeat (rewrite vec_at_cell_of by nia). reflexivity.
Qed.

(** The first interior cell of a valid board in the middle revision. *)
Lemma evolve_all_checked_undefined (plus_vector : T → list T → T) l :
  valid l → 1 ≤ height l → 1 ≤ width l →
  evolve_all_checked NonTrivialDestructor plus_vector l = Error UndefinedBehaviour.
Proof.
  intros (Hh & Hw & Hlen) Hh1 Hw1. unfold evolve_all_checked. simpl.
  rewrite (seqZ_cons 0 (height l)) by lia. cbn [for_each].
  change (width (set_population l 0)) with (width l).
  rewrite (seqZ_cons 0 (width l)) by lia. cbn [for_each].
  assert (evolve_cell_checked NonTrivialDestructor plus_vector (board l) 0 0
            (set_population l 0) = Error UndefinedBehaviour) as ->; [|done].
  pose proof (phys_bounds (height l) (width l) 0 0) as Hp.
  unfold evolve_cell_checked, destroy_then_assign, at_get. simpl.
  rewrite vec_at_cell_of, bind_Ok by lia.
  rewrite (read_neighbors_checked_Ok (board l) (height l)), bind_Ok by (done || lia).
  set (new_cell := plus_vector _ _).
  assert (width (count_if_alive new_cell (set_population l 0)) = width l ∧
          board (count_if_alive new_cell (set_population l 0)) = board l)
    as [-> ->].
  { unfold count_if_alive. by destruct (is_alive new_cell). }
  by rewrite !vec_at_cell_of, !bind_Ok by lia.
Qed.

(** X8. The step of the middle revision, which reads the neighbours with
    the checked [at], against the step of the latest revision, when the
    [operator+] of the two revisions compute the same cell: the one
    succeeds exactly when the other does, with the same result, and on a
    valid board the two steps are equal.  The explicit destructor call is
    the only undefined behaviour of the middle revision: with a trivial
    destructor it has none, on any board. *)
Theorem evolve_all_checked_agrees (dtor : destructor)
        (plus_vector : T → list T → T) l :
  (∀ c ns, plus_vector c ns = plus c ns) →
  (∀ l', evolve_all_lifetime dtor l = Ok l' ↔
         evolve_all_checked dtor plus_vector l = Ok l') ∧
  (dtor = TrivialDestructor →
     evolve_all_checked dtor plus_vector l ≠ Error UndefinedBehaviour) ∧
  (valid l → evolve_all_checked dtor plus_vector l = evolve_all_lifetime dtor l).
Proof.
  intros Hplus.
  assert (same_success (dtor = TrivialDestructor)
            (evolve_all_lifetime dtor l) (evolve_all_checked dtor plus_vector l))
    as [Hsame Hub].
  { unfold evolve_all_lifetime, evolve_all_checked.
    apply same_success_bind; [|by split].
    apply same_success_for_each. intros x s.
    apply same_success_for_each. intros y s'. by apply same_success_cell. }
  split; [done|]. split; [done|].
  intros Hv. destruct (evolve_all_lifetime dtor l) as [l'|e] eqn:Hrun.
  - by apply Hsame.
  - destruct dtor.
    + destruct (evolve_all_spec l Hv) as (l' & Hrun' & _).
      rewrite evolve_all_lifetime_trivial in Hrun. congruence.
    + destruct (decide (1 ≤ height l ∧ 1 ≤ width l)) as [[Hh1 Hw1]|Hempty].
      * rewrite evolve_all_lifetime_undefined in Hrun by done.
        injection Hrun as <-. by apply evolve_all_checked_undefined.
      * destruct Hv as (Hh & Hw & _).
        rewrite evolve_all_lifetime_empty in Hrun by lia. done.
Qed.
End CheckedStep.

(** ** Construction and the text *)

Section CtorMore.
Context {T : Type} `{CellLike T}.
Implicit Types (l : Life T) (r : list ascii) (ts : list T).

Lemma lines_from_row r : newline ∉ r →
  ∀ (cur rest : list ascii),
  lines_from cur (r ++ newline :: rest) = (cur ++ r) :: lines_from [] rest.
Proof.
  induction r as [|c r IH]; intros Hnl cur rest; simpl.
  - by rewrite app_nil_r.
  - apply not_elem_of_cons in Hnl as [Hc Hr].
    rewrite bool_decide_eq_false_2 by done.
    rewrite IH by done. by rewrite <- app_assoc.
Qed.

Lemma text_lines_render_rows (rows : list (list ascii)) :
  Forall (λ r, newline ∉ r) rows → text_lines (render_rows rows) = rows.
Proof.
  unfold text_lines. induction 1 as [|r rows Hr Hrows IH]; [done|].
  pose proof (render_rows_cons r rows []) as Hcons.
  rewrite !app_nil_r in Hcons. rewrite Hcons, lines_from_row by done.
  simpl. by rewrite IH.
Qed.

Lemma parsed_no_newline r ts : Forall2 parsed r ts → newline ∉ r.
Proof.
  induction 1 as [|c t r ts [Hc _] _ IH]; [apply not_elem_of_nil|].
  apply not_elem_of_cons. by split.
Qed.

Lemma grid_text_no_newline (h w : Z) (rows : list (list ascii)) (cells : list (list T)) :
  grid_text h w rows cells → Forall (λ r, newline ∉ r) rows.
Proof.
  intros (_ & _ & Hgrid). induction Hgrid as [|r ts rows cells (_ & _ & Hr) _ IH];
    [done|].
  apply Forall_cons. split; [by eapply parsed_no_newline | done].
Qed.

Lemma render_rows_last (rows : list (list ascii)) :
  rows ≠ [] → last (render_rows rows) = Some newline.
Proof.
  induction rows as [|r rows IH]; [done|]. intros _.
  pose proof (render_rows_cons r rows []) as Hcons.
  rewrite !app_nil_r in Hcons. rewrite Hcons.
  destruct rows as [|r' rows].
  - unfold render_rows. simpl. apply last_snoc.
  - rewrite last_app, last_cons, IH by done. done.
Qed.


Lemma sum_with_cons {A} (f : A → Z) (a : A) (l : list A) :
  sum_with f (a :: l) = f a + sum_with f l.
Proof. reflexivity. Qed.

Lemma sum_with_fmap {A} (g : A → Z) (f : Z → A) (idx : list Z) :
  sum_with g (f <$> idx) = sumZ (λ i, g (f i)) idx.
Proof.
  induction idx as [|i idx IH]; [done|].
  rewrite fmap_cons, sum_with_cons, sumZ_cons. by rewrite IH.
Qed.

Lemma alive_interior_rows l : alive_interior l = alive_total (interior_rows l).
Proof.
  unfold alive_interior, alive_total, interior_rows. rewrite sum_with_fmap.
  apply sumZ_ext. intros x _. unfold interior_row. by rewrite sum_with_fmap.
Qed.

(** The interior rows of a board whose interior holds the grid [cells]. *)
Lemma interior_rows_of_grid l (cells : list (list T)) :
  Z.of_nat (length cells) = height l →
  Forall (λ ts, Z.of_nat (length ts) = width l) cells →
  (∀ (i j : nat) ts t, cells !! i = Some ts → ts !! j = Some t →
        board l !! Z.to_nat (phys (width l) (Z.of_nat i) (Z.of_nat j)) = Some t) →
  interior_rows l = cells.
Proof.
  intros Hh Hw Hcells. apply list_eq. intros i. unfold interior_rows.
  rewrite list_lookup_fmap.
  destruct (cells !! i) as [ts|] eqn:Hi.
  - pose proof (lookup_lt_Some _ _ _ Hi) as Hilt.
    rewrite lookup_seqZ_lt by lia. simpl. f_equal.
    rewrite Forall_forall in Hw.
    assert (Z.of_nat (length ts) = width l) as Hts
      by (apply Hw; by eapply list_elem_of_lookup_2).
    apply list_eq. intros j. unfold interior_row. rewrite list_lookup_fmap.
    destruct (ts !! j) as [t|] eqn:Hj.
    + pose proof (lookup_lt_Some _ _ _ Hj) as Hjlt.
      rewrite lookup_seqZ_lt by lia. simpl. f_equal.
      unfold cell_of. rewrite !Z.add_0_l. by rewrite (Hcells i j ts t Hi Hj).
    + apply lookup_ge_None in Hj. rewrite lookup_seqZ_ge by lia. done.
  - apply lookup_ge_None in Hi. rewrite lookup_seqZ_ge by lia. done.
Qed.

(** The board the constructor builds from the text of a grid, with its
    interior rows. *)
Lemma Life_ctor_rows (h w : Z) (rows : list (list ascii)) (cells : list (list T))
      (rest : list ascii) :
  grid_text h w rows cells → terminator rest →
  ∃ l, Life_ctor (render_rows rows ++ rest) h w = Ok l ∧
       height l = h ∧ width l = w ∧ generation l = 0 ∧
       valid l ∧ framed l ∧ population l = alive_interior l ∧
       interior_rows l = cells.
Proof.
  intros Hgrid Hterm.
  destruct (Life_ctor_spec h w rows cells rest Hgrid Hterm)
    as (l & Hrun & Hh & Hw & Hg & Hv & Hf & Hp & Hcells).
  exists l. do 7 (split; [done|]).
  destruct Hgrid as (Hlen & Hw0 & Hgrid).
  apply interior_rows_of_grid.
  - apply Forall2_length in Hgrid. lia.
  - rewrite Hw. clear -Hgrid.
    induction Hgrid as [|r ts rows cells (_ & Hts & _) _ IH]; [done|].
    by apply Forall_cons.
  - intros i j ts t Hi Hj. specialize (Hcells i j ts t Hi Hj).
    unfold at_get, vec_at in Hcells. rewrite Hw.
    case_bool_decide; [|done]. rewrite Hw in Hcells.
    by destruct (board l !! _); simplify_eq.
Qed.

End CtorMore.

(** ** A last line that no newline ends *)

Section UnterminatedLine.
Context {T : Type} `{CellLike T}.
Implicit Types (l : Life T) (ts : list T).

(** Reading cell characters at row [height], below the interior: they
    are written into the bottom frame row and counted. *)
Lemma read_tail_spec (extra : list ascii) ts : Forall2 parsed extra ts →
  ∀ l (y0 : Z),
  0 ≤ height l → 0 ≤ y0 → y0 + Z.of_nat (length ts) ≤ width l + 1 →
  Z.of_nat (length (board l)) = (width l + 2) * (height l + 2) →
  ∃ l', read_cells extra l (height l) y0 = Ok (l', height l) ∧
        height l' = height l ∧ width l' = width l ∧
        generation l' = generation l ∧
        length (board l') = length (board l) ∧
        population l' = population l + sum_with alive01 ts ∧
        (∀ (j : nat) t, ts !! j = Some t →
              board l' !! Z.to_nat (phys (width l) (height l) (y0 + Z.of_nat j))
              = Some t) ∧
        (∀ i : nat, (i < Z.to_nat (phys (width l) (height l) y0))%nat →
                    board l' !! i = board l !! i).
Proof.
  induction 1 as [|c t extra ts Hc Hrts IH]; intros l y0 Hh Hy0 Hyn Hlen.
  - exists l. simpl. unfold sum_with. simpl. rewrite Z.add_0_r.
    by repeat split.
  - simpl length in *.
    rewrite (read_cells_char c t) by (done || unfold phys; nia).
    set (l1 := set_board (count_if_alive t l) _).
    assert (height l1 = height l ∧ width l1 = width l ∧
            generation l1 = generation l ∧
            board l1 = <[Z.to_nat (phys (width l) (height l) y0) := t]> (board l) ∧
            population l1 = population l + alive01 t)
      as (Hh1 & Hw1 & Hg1 & Hb1 & Hp1).
    { unfold l1, count_if_alive, alive01.
      destruct (is_alive t); simpl; repeat split; lia. }
    destruct (IH l1 (y0 + 1))
      as (l' & Hrun & Hh' & Hw' & Hg' & Hl' & Hpop & Hnew & Hrest).
    + by rewrite Hh1.
    + lia.
    + rewrite Hw1. lia.
    + by rewrite Hb1, length_insert, Hw1, Hh1.
    + rewrite Hh1, Hw1 in *.
      exists l'. split; [done|]. split; [congruence|]. split; [congruence|].
      split; [congruence|]. split; [by rewrite Hl', Hb1, length_insert|].
      split; [rewrite sum_with_cons; lia|]. split.
      * intros [|j] t' Hj; simpl in Hj.
        -- injection Hj as <-. rewrite Z.add_0_r, Hrest by (unfold phys; nia).
           rewrite Hb1. apply list_lookup_insert_eq. unfold phys. nia.
        -- replace (y0 + Z.of_nat (S j)) with (y0 + 1 + Z.of_nat j) by lia.
           by apply Hnew.
      * intros i Hi. rewrite Hrest by (unfold phys in *; nia).
        rewrite Hb1. apply list_lookup_insert_ne. lia.
Qed.

End UnterminatedLine.

(** ** Printing *)

Section PrintMore.
Context {T : Type} `{CellLike T}.
Variable show_cell : T → list ascii.
Implicit Types (l : Life T) (out : list ascii).

Lemma for_each_cons {S} (i : Z) (idx : list Z) (body : Z → S → result S) (s : S) :
  for_each (i :: idx) body s = body i s ≫= for_each idx body.
Proof. reflexivity. Qed.

(** What [print] writes for a row of cells and for the rows of a board. *)
Lemma print_cells_loop l (x : Z) (n : nat) : ∀ (y0 : Z) out,
  0 ≤ width l → 0 ≤ x → 0 ≤ y0 →
  x * (width l + 2) + y0 + Z.of_nat n ≤ Z.of_nat (length (board l)) →
  for_each (seqZ y0 (Z.of_nat n))
    (λ y out, cell ← vec_index (board l) (x * (width l + 2) + y);
              Ok (out ++ show_cell cell)) out
  = Ok (out ++ concat ((λ y, show_cell (cell_of (board l) (x * (width l + 2) + y)))
                         <$> seqZ y0 (Z.of_nat n))).
Proof.
  induction n as [|n IH]; intros y0 out Hw Hx Hy0 Hlen.
  - rewrite seqZ_nil by lia. simpl. by rewrite app_nil_r.
  - rewrite seqZ_cons by lia. rewrite for_each_cons, fmap_cons.
    replace (Z.pred (Z.of_nat (S n))) with (Z.of_nat n) by lia.
    rewrite vec_index_cell_of by nia. rewrite !bind_Ok.
    rewrite IH by (done || lia). simpl. by rewrite <- app_assoc.
Qed.

Lemma print_row_Ok l (x : Z) out :
  valid l → 0 ≤ x < height l →
  print_row show_cell l (x + 1) out
  = Ok (out ++ concat (show_cell <$> interior_row l x) ++ [newline]).
Proof.
  intros (Hh & Hw & Hlen) Hx. unfold print_row.
  pose proof (print_cells_loop l (x + 1) (Z.to_nat (width l)) 1 out) as Hloop.
  rewrite Z2Nat.id in Hloop by lia. rewrite Hloop by nia. rewrite bind_Ok.
  clear Hloop.
  rewrite <- app_assoc. do 4 f_equal.
  unfold interior_row. rewrite <- list_fmap_compose.
  rewrite <- (fmap_add_seqZ 1 0), <- list_fmap_compose.
  apply list_fmap_ext. intros _ y _. simpl. do 2 f_equal. unfold phys. lia.
Qed.

Lemma print_rows_loop l (n : nat) : ∀ (x0 : Z) out,
  valid l → 0 ≤ x0 → x0 + Z.of_nat n ≤ height l →
  for_each (seqZ (x0 + 1) (Z.of_nat n)) (print_row show_cell l) out
  = Ok (out ++ concat ((λ row, concat (show_cell <$> row) ++ [newline])
                         <$> (interior_row l <$> seqZ x0 (Z.of_nat n)))).
Proof.
  induction n as [|n IH]; intros x0 out Hv Hx0 Hn.
  - rewrite !seqZ_nil by lia. simpl. by rewrite app_nil_r.
  - rewrite (seqZ_cons (x0 + 1)), (seqZ_cons x0) by lia.
    rewrite for_each_cons, !fmap_cons.
    replace (Z.pred (Z.of_nat (S n))) with (Z.of_nat n) by lia.
    rewrite print_row_Ok by (done || lia). rewrite bind_Ok.
    replace (Z.succ (x0 + 1)) with (Z.succ x0 + 1) by lia.
    rewrite IH by (done || lia). simpl. by rewrite <- !app_assoc.
Qed.

Lemma print_rows_all l (out : list ascii) :
  valid l →
  for_each (seqZ 1 (height l)) (print_row show_cell l) out
  = Ok (out ++ concat ((λ row, concat (show_cell <$> row) ++ [newline])
                         <$> interior_rows l)).
Proof.
  intros Hv.
  pose proof (print_rows_loop l (Z.to_nat (height l)) 0 out Hv) as Hloop.
  destruct Hv as (Hh & Hw & Hlen).
  rewrite Z2Nat.id in Hloop by lia. replace (0 + 1) with 1 in Hloop by lia.
  by rewrite Hloop by lia.
Qed.

(** X11. On a valid board [print] succeeds: it writes the header line,
    then for each interior row, top to bottom, what its cells print, left
    to right, and a newline, then one more newline.  No frame cell is
    printed. *)
Theorem print_writes_interior l :
  valid l →
  print show_cell l
  = Ok (print_header l ++
        concat ((λ row, concat (show_cell <$> row) ++ [newline]) <$> interior_rows l) ++
        [newline]).
Proof.
  intros Hv. unfold print.
  rewrite print_rows_all by done. rewrite bind_Ok. by rewrite <- app_assoc.
Qed.

Lemma show_parsed_row (r : list ascii) (ts : list T) :
  (∀ c t, parsed c t → show_cell t = [c]) →
  Forall2 parsed r ts → concat (show_cell <$> ts) = r.
Proof.
  intros Hshow. induction 1 as [|c t r ts Hc _ IH]; [done|].
  rewrite fmap_cons. simpl. by rewrite (Hshow c t Hc), IH.
Qed.

Lemma show_parsed_rows (w : Z) (rows : list (list ascii)) (cells : list (list T)) :
  (∀ c t, parsed c t → show_cell t = [c]) →
  Forall2 (λ r ts, r ≠ [] ∧ Z.of_nat (length ts) = w ∧ Forall2 parsed r ts)
          rows cells →
  concat ((λ row, concat (show_cell <$> row) ++ [newline]) <$> cells)
  = render_rows rows.
Proof.
  intros Hshow. unfold render_rows.
  induction 1 as [|r ts rows' cells' (_ & _ & Hr) _ IH]; [done|].
  rewrite !fmap_cons, !concat_cons. by rewrite (show_parsed_row r ts Hshow Hr), IH.
Qed.


End PrintMore.

(** ** The two constructors *)

Section InferredCtor.
Context {T : Type} `{CellLike T}.
Implicit Types (l : Life T) (r : list ascii) (ts : list T).

Variable border_temp : nat → T.

(** The scan inside a line. *)
Lemma scan_cells_mid r ts : Forall2 parsed r ts →
  ∀ (rest : list ascii) (w h p : Z) (tb : list T) (k : nat),
  scan_cells border_temp (r ++ rest) (mkScan false w h p tb k)
  = scan_cells border_temp rest
      (mkScan false (if bool_decide (h < 1) then w + Z.of_nat (length r) else w) h
         (p + sum_with alive01 ts) (tb ++ ts) k).
Proof.
  induction 1 as [|c t r ts [Hnl Hc] _ IH]; intros rest w h p tb k.
  - simpl. rewrite app_nil_r, Z.add_0_r.
    replace (p + sum_with alive01 []) with p by (unfold sum_with; simpl; lia).
    by destruct (bool_decide (h < 1)).
  - simpl app. simpl scan_cells. rewrite bool_decide_eq_false_2 by done.
    rewrite Hc, bind_Ok. simpl. rewrite IH.
    rewrite sum_with_cons, <- app_assoc. simpl.
    f_equal. f_equal; [|unfold alive01; destruct (is_alive t); lia].
    repeat case_bool_decide; lia.
Qed.

(** The scan of one whole line, from the start of the line: the border
    cells on its two sides are the next two temporaries. *)
Lemma scan_cells_line r ts (rest : list ascii) (w h p : Z) (tb : list T) (k : nat) :
  r ≠ [] → Forall2 parsed r ts →
  scan_cells border_temp (r ++ newline :: rest) (mkScan true w h p tb k)
  = scan_cells border_temp rest
      (mkScan true (if bool_decide (h < 1) then w + Z.of_nat (length r) else w) (h + 1)
         (p + sum_with alive01 ts)
         (tb ++ border_temp k :: ts ++ [border_temp (S k)]) (S (S k))).
Proof.
  intros Hne Hr. destruct Hr as [|c t r ts [Hnl Hc] Hr]; [done|].
  simpl app. simpl scan_cells. rewrite bool_decide_eq_false_2 by done.
  rewrite Hc, bind_Ok. simpl. rewrite (scan_cells_mid r ts Hr). simpl.
  unfold end_line, push_border. simpl.
  rewrite sum_with_cons, <- !app_assoc. simpl.
  f_equal. f_equal.
  - repeat case_bool_decide; lia.
  - unfold alive01. destruct (is_alive t); lia.
Qed.

Lemma padded_rows_cons (k : nat) ts (cells : list (list T)) :
  padded_rows border_temp k (ts :: cells)
  = (border_temp k :: ts ++ [border_temp (S k)])
      :: padded_rows border_temp (S (S k)) cells.
Proof.
  unfold padded_rows. rewrite imap_cons. f_equal.
  - by rewrite Nat.mul_0_r, Nat.add_0_r, Nat.add_1_r.
  - apply imap_ext. intros i ts' _. unfold compose.
    replace (k + 2 * S i)%nat with (S (S k) + 2 * i)%nat by lia. done.
Qed.

Lemma scan_cells_rows (w : Z) (rows : list (list ascii)) (cells : list (list T)) :
  Forall2 (λ r ts, r ≠ [] ∧ Z.of_nat (length ts) = w ∧ Forall2 parsed r ts)
          rows cells →
  ∀ (rest : list ascii) (w0 h0 p : Z) (tb : list T) (k : nat),
  terminator rest → 0 ≤ h0 → (h0 < 1 → w0 = 0) → (1 ≤ h0 → w0 = w) →
  scan_cells border_temp (render_rows rows ++ rest) (mkScan true w0 h0 p tb k)
  = Ok (mkScan true (match rows with [] => w0 | _ => w end)
          (h0 + Z.of_nat (length rows)) (p + alive_total cells)
          (tb ++ concat (padded_rows border_temp k cells))
          (k + 2 * length cells)).
Proof.
  induction 1 as [|r ts rows cells (Hne & Hlen & Hr) Hrows IH];
    intros rest w0 h0 p tb k Hterm Hh0 Hw0 Hw1.
  - simpl. rewrite Z.add_0_r, app_nil_r, Nat.add_0_r.
    replace (p + alive_total []) with p by (unfold alive_total, sum_with; simpl; lia).
    by destruct Hterm as [-> | [rest' ->]].
  - rewrite render_rows_cons, (scan_cells_line r ts) by done.
    pose proof (Forall2_length _ _ _ Hr) as Hlr.
    rewrite IH; [|done|lia| |].
    + rewrite padded_rows_cons, concat_cons, <- app_assoc. simpl length.
      unfold alive_total. rewrite sum_with_cons. fold (alive_total cells).
      f_equal. f_equal; [|lia|lia|lia].
      destruct rows; repeat case_bool_decide; lia.
    + lia.
    + intros _. case_bool_decide; lia.
Qed.

(** When every temporary has the same value, the storage is the padded
    storage of the grid. *)
Lemma padded_board_temps_uniform (w : Z) (cells : list (list T)) :
  (∀ k, border_temp k = of_border true) →
  padded_board_temps border_temp w cells = padded_board w cells.
Proof.
  intros Hsame.
  assert (∀ n a, border_temp <$> seq a n = replicate n (of_border true)) as Hrow.
  { induction n as [|n IH]; intros a; [done|]. simpl. by rewrite Hsame, IH. }
  unfold padded_board_temps, padded_board, padded_rows. rewrite !Hrow.
  do 3 f_equal. rewrite <- imap_const. apply imap_ext. intros i ts _.
  by rewrite !Hsame.
Qed.

(** The storage of a grid read row by row. *)
Lemma lookup_concat_rows {A} (ls : list (list A)) (W : nat) : ∀ (r c : nat),
  Forall (λ row, length row = W) ls → (c < W)%nat →
  concat ls !! (r * W + c)%nat = ls !! r ≫= (λ row, row !! c).
Proof.
  induction ls as [|row ls IH]; intros r c Hls Hc; [done|].
  apply Forall_cons in Hls as [Hl Hls]. rewrite concat_cons.
  destruct r as [|r]; simpl.
  - by rewrite lookup_app_l by lia.
  - rewrite lookup_app_r by lia. rewrite <- IH by done. f_equal. lia.
Qed.

Lemma padded_board_lookup (w : Z) (cells : list (list T)) (r c : Z) :
  0 ≤ w → Forall (λ ts, Z.of_nat (length ts) = w) cells →
  0 ≤ r → 0 ≤ c < w + 2 →
  padded_board w cells !! Z.to_nat (r * (w + 2) + c)
  = (replicate (Z.to_nat (w + 2)) (of_border true) ::
       ((λ ts, of_border true :: ts ++ [of_border true]) <$> cells) ++
       [replicate (Z.to_nat (w + 2)) (of_border true)]) !! Z.to_nat r
    ≫= (λ row, row !! Z.to_nat c).
Proof.
  intros Hw Hcells Hr Hc.
  replace (padded_board w cells) with
    (concat (replicate (Z.to_nat (w + 2)) (of_border true) ::
               ((λ ts, of_border true :: ts ++ [of_border true]) <$> cells) ++
               [replicate (Z.to_nat (w + 2)) (of_border true)])).
  - replace (Z.to_nat (r * (w + 2) + c))
      with (Z.to_nat r * Z.to_nat (w + 2) + Z.to_nat c)%nat by nia.
    apply lookup_concat_rows; [|lia].
    apply Forall_cons. split; [by rewrite length_replicate|].
    apply Forall_app. split.
    + apply Forall_fmap. eapply Forall_impl; [exact Hcells|].
      intros ts Hts. simpl in *. rewrite length_app. simpl. lia.
    + apply Forall_cons. split; [by rewrite length_replicate | done].
  - unfold padded_board. rewrite concat_cons, concat_app. simpl.
    by rewrite app_nil_r.
Qed.

Lemma padded_board_length (w : Z) (cells : list (list T)) :
  0 ≤ w → Forall (λ ts, Z.of_nat (length ts) = w) cells →
  Z.of_nat (length (padded_board w cells)) = (w + 2) * (Z.of_nat (length cells) + 2).
Proof.
  intros Hw Hcells. unfold padded_board.
  rewrite !length_app, !length_replicate.
  assert (Z.of_nat (length (concat ((λ ts, of_border true :: ts ++ [of_border true])
                                      <$> cells)))
          = (w + 2) * Z.of_nat (length cells)) as Hc.
  { induction Hcells as [|ts cells Hts _ IH]; [simpl; lia|].
    rewrite fmap_cons, concat_cons, length_app. simpl length.
    rewrite length_app. simpl length. lia. }
  lia.
Qed.

(** In a storage made of rows of [w + 2] cells, the slot of interior
    coordinate [(i, j)] holds cell [j] of line [i] of the grid. *)
Lemma framed_rows_lookup (top bottom : list T) (rowsP cells : list (list T))
      (w : Z) (i j : nat) ts (t : T) :
  0 ≤ w → length top = Z.to_nat (w + 2) → length bottom = Z.to_nat (w + 2) →
  Forall2 (λ rowP ts, Z.of_nat (length ts) = w ∧ ∃ a b, rowP = a :: ts ++ [b])
          rowsP cells →
  cells !! i = Some ts → ts !! j = Some t →
  (top ++ concat rowsP ++ bottom) !! Z.to_nat (phys w (Z.of_nat i) (Z.of_nat j))
  = Some t.
Proof.
  intros Hw Htop Hbottom Hrows Hi Hj.
  destruct (Forall2_lookup_r _ _ _ _ _ Hrows Hi) as (rowP & HiP & Hlen & a & b & ->).
  pose proof (lookup_lt_Some _ _ _ Hj) as Hjlt.
  pose proof (lookup_lt_Some _ _ _ HiP) as Hilt.
  replace (top ++ concat rowsP ++ bottom) with (concat (top :: rowsP ++ [bottom]))
    by (rewrite concat_cons, concat_app; simpl; by rewrite app_nil_r).
  replace (Z.to_nat (phys w (Z.of_nat i) (Z.of_nat j)))
    with (S i * Z.to_nat (w + 2) + S j)%nat by (unfold phys; nia).
  rewrite lookup_concat_rows; [| |lia].
  - rewrite lookup_cons, lookup_app_l, HiP by done. simpl.
    by rewrite lookup_app_l by lia.
  - apply Forall_cons. split; [done|]. apply Forall_app. split.
    + apply Forall_forall. intros rowP HrowP.
      apply list_elem_of_lookup_1 in HrowP as [i' Hi'].
      destruct (Forall2_lookup_l _ _ _ _ _ Hrows Hi') as (ts' & _ & Hlen' & a' & b' & ->).
      simpl. rewrite length_app. simpl. lia.
    + by apply Forall_cons.
Qed.

(** What the constructor with explicit dimensions builds from the text of
    a grid. *)
Lemma Life_ctor_padded (h w : Z) (rows : list (list ascii))
      (cells : list (list T)) (rest : list ascii) :
  grid_text h w rows cells → terminator rest →
  Life_ctor (render_rows rows ++ rest) h w
  = Ok (mkLife h w (padded_board w cells) 0 (alive_total cells)).
Proof.
  intros Hgrid Hterm.
  destruct (Life_ctor_rows h w rows cells rest Hgrid Hterm)
    as (l & Hrun & Hh & Hw & Hg & Hv & Hf & Hp & Hrows).
  destruct Hgrid as (Hlen & Hw0 & Hgrid).
  pose proof (Forall2_length _ _ _ Hgrid) as Hlc.
  assert (Forall (λ ts, Z.of_nat (length ts) = w) cells) as Hcells.
  { clear -Hgrid. induction Hgrid as [|r ts rows cells (_ & Hts & _) _ IH]; [done|].
    by apply Forall_cons. }
  rewrite Hrun. f_equal.
  assert (board l = padded_board w cells) as Hb.
  { destruct Hv as (Hh0 & Hw1 & Hsize). rewrite Hh, Hw in Hsize.
    pose proof (padded_board_length w cells Hw0 Hcells) as Hpl.
    apply list_eq. intros k.
    destruct (decide (k < length (board l))%nat) as [Hk|Hk];
      [|rewrite !lookup_ge_None_2; [done | nia | lia]].
    assert (0 ≤ Z.of_nat k `mod` (w + 2) < w + 2) as Hm
      by (apply Z.mod_pos_bound; lia).
    assert (0 ≤ Z.of_nat k `div` (w + 2)) as Hd0 by (apply Z.div_pos; lia).
    assert (Z.of_nat k `div` (w + 2) < h + 2) as Hd1
      by (apply Z.div_lt_upper_bound; lia).
    pose proof (Z.div_mod (Z.of_nat k) (w + 2) ltac:(lia)) as Hdm.
    set (q := Z.of_nat k `div` (w + 2)) in *.
    set (c := Z.of_nat k `mod` (w + 2)) in *.
    replace k with (Z.to_nat (q * (w + 2) + c)) by lia.
    rewrite padded_board_lookup by (done || lia).
    destruct (decide (1 ≤ q ≤ h ∧ 1 ≤ c ≤ w)) as [[Hq Hc]|Hfr].
    - destruct (lookup_lt_is_Some_2 cells (Z.to_nat (q - 1))) as [ts Hts]; [lia|].
      assert (Z.of_nat (length ts) = w) as Hlts.
      { rewrite Forall_forall in Hcells. apply Hcells.
        by eapply list_elem_of_lookup_2. }
      destruct (lookup_lt_is_Some_2 ts (Z.to_nat (c - 1))) as [t Ht]; [lia|].
      replace (Z.to_nat q) with (S (Z.to_nat (q - 1))) by lia.
      rewrite lookup_cons, lookup_app_l by (rewrite length_fmap; lia).
      rewrite list_lookup_fmap, Hts. simpl.
      replace (Z.to_nat c) with (S (Z.to_nat (c - 1))) by lia.
      rewrite lookup_cons, lookup_app_l by lia. rewrite Ht.
      assert (interior_rows l !! Z.to_nat (q - 1) = Some ts) as Hrq
        by (by rewrite Hrows).
      unfold interior_rows in Hrq. rewrite list_lookup_fmap in Hrq.
      rewrite lookup_seqZ_lt in Hrq by lia. simpl in Hrq. injection Hrq as Hrq.
      assert (interior_row l (q - 1) !! Z.to_nat (c - 1) = Some t) as Hcq
        by (rewrite Z.add_0_l, Z2Nat.id in Hrq by lia; by rewrite Hrq).
      unfold interior_row in Hcq. rewrite list_lookup_fmap in Hcq.
      rewrite lookup_seqZ_lt in Hcq by lia. simpl in Hcq. injection Hcq as Hcq.
      rewrite Z.add_0_l, Z2Nat.id, Hw in Hcq by lia. unfold cell_of, phys in Hcq.
      replace ((q - 1 + 1) * (w + 2) + (c - 1) + 1) with (q * (w + 2) + c) in Hcq
        by lia.
      destruct (lookup_lt_is_Some_2 (board l) (Z.to_nat (q * (w + 2) + c)))
        as [t' Ht']; [lia|].
      rewrite Ht' in *. simpl in Hcq. by rewrite Hcq.
    - assert (on_frame (height l) (width l) (q * (w + 2) + c)) as Hon.
      { rewrite Hh, Hw. replace (q * (w + 2) + c) with (Z.of_nat k) by lia.
        split; [lia|]. fold q c. lia. }
      rewrite (Hf _ Hon).
      destruct (decide (q = 0)) as [->|Hq0].
      + simpl. symmetry. apply lookup_replicate_2. lia.
      + replace (Z.to_nat q) with (S (Z.to_nat (q - 1))) by lia.
        rewrite lookup_cons.
        destruct (decide (q = h + 1)) as [->|Hqh].
        * rewrite lookup_app_r by (rewrite length_fmap; lia).
          rewrite length_fmap.
          replace (Z.to_nat (h + 1 - 1) - length cells)%nat with 0%nat by lia.
          simpl. symmetry. apply lookup_replicate_2. lia.
        * destruct (lookup_lt_is_Some_2 cells (Z.to_nat (q - 1))) as [ts Hts]; [lia|].
          assert (Z.of_nat (length ts) = w) as Hlts.
          { rewrite Forall_forall in Hcells. apply Hcells.
            by eapply list_elem_of_lookup_2. }
          rewrite lookup_app_l by (rewrite length_fmap; lia).
          rewrite list_lookup_fmap, Hts. simpl.
          destruct (decide (c = 0)) as [->|Hc0]; [done|].
          replace (Z.to_nat c) with (S (Z.to_nat (c - 1))) by lia.
          rewrite lookup_cons, lookup_app_r by lia.
          replace (Z.to_nat (c - 1) - length ts)%nat with 0%nat by lia. done. }
  assert (population l = alive_total cells) as Hpop
    by (by rewrite Hp, alive_interior_rows, Hrows).
  clear Hrun Hf Hp Hrows Hv. destruct l as [h' w' b' g' p']. simpl in *.
  by rewrite Hh, Hw, Hb, Hg, Hpop.
Qed.

End InferredCtor.

(** ** The neighbour array against the documented order *)

Section NeighborOrder.
Context {T : Type} `{CellLike T}.

Lemma neighbor_indices_offsets (w x y : Z) :
  neighbor_indices w x y = offset_index w x y <$> scanned_order.
Proof.
  unfold neighbor_indices, scanned_order, offset_index. simpl.
  repeat (apply (f_equal2 cons); [lia|]). reflexivity.
Qed.

(** X15. Around an interior coordinate the eight reads of [evolve_all] and
    the cell itself are nine different slots; the reads succeed, the first
    four elements of the array are the four edge-adjacent cells and the
    last four the four diagonal cells: each half is a rearrangement of the
    same half of the documented order, so a rule that only counts over the
    first four, the last four or all eight neighbours sees the documented
    counts. *)
Theorem neighbor_halves_permute_documented (b : list T) (h w x y : Z) :
  0 ≤ x < h → 0 ≤ y < w → Z.of_nat (length b) = (w + 2) * (h + 2) →
  NoDup (phys w x y :: neighbor_indices w x y) ∧
  ∃ ns, read_neighbors b w x y = Ok ns ∧
        take 4 ns ≡ₚ cell_of b <$> (offset_index w x y <$> take 4 documented_order) ∧
        drop 4 ns ≡ₚ cell_of b <$> (offset_index w x y <$> drop 4 documented_order).
Proof.
  intros Hx Hy Hlen. split.
  - unfold phys, neighbor_indices.
    repeat (apply NoDup_cons; split;
            [rewrite ?elem_of_cons, elem_of_nil; nia|]).
    apply NoDup_nil_2.
  - exists (neighbors_of b w x y). split; [by apply (read_neighbors_Ok b h)|].
    unfold neighbors_of. rewrite neighbor_indices_offsets.
    unfold scanned_order, documented_order. simpl. split.
    + apply (Permutation_rev [_; _; _; _]).
    + etrans; [apply perm_swap|]. etrans; [apply perm_skip, perm_swap|].
      apply perm_swap.
Qed.
End NeighborOrder.

(** ** The further properties on the example boards *)

Lemma blinker_framed : framed blinker.
Proof.
  intros i [Hi Hd]. simpl height in *. simpl width in *.
  assert (∃ n : nat, i = Z.of_nat n ∧ (n < 25)%nat) as (n & -> & Hn)
    by (exists (Z.to_nat i); lia).
  rewrite Nat2Z.id.
  do 25 (destruct n as [|n];
         [first [reflexivity | exfalso; vm_compute in Hd; intuition discriminate]|]).
  lia.
Qed.

Lemma empty_board_valid : valid empty_board.
Proof. unfold valid. simpl. lia. Qed.

Lemma conway_example_show_parsed (c : ascii) (t : Cells.ConwayCell) :
  parsed c t → conway_example_show t = [c].
Proof.
  intros [_ Hc]. simpl in Hc. unfold Cells.ConwayCell_of_char in Hc.
  repeat case_bool_decide; simplify_eq; reflexivity.
Qed.

Lemma blinker_cells_show (x y : Z) :
  0 ≤ x < height blinker → 0 ≤ y < width blinker →
  let t := cell_of (board blinker) (phys (width blinker) x y) in
  conway_example_show t = [conway_example_char t] ∧ parsed (conway_example_char t) t.
Proof.
  simpl height. simpl width. intros Hx Hy.
  assert (x = 0 ∨ x = 1 ∨ x = 2) as Hxs by lia.
  assert (y = 0 ∨ y = 1 ∨ y = 2) as Hys by lia.
  destruct Hxs as [-> | [-> | ->]], Hys as [-> | [-> | ->]];
    (split; [reflexivity | split; [discriminate | reflexivity]]).
Qed.


Lemma iter_incr_decr_inverse_witness :
  1 ≤ width blinker ∧ 0 ≤ it_y (mkIter 0 2) < width blinker ∧
  iter_decr blinker (iter_incr blinker (mkIter 0 2)) = mkIter 0 2 ∧
  iter_incr blinker (iter_decr blinker (mkIter 0 2)) = mkIter 0 2.
Proof.
  assert (1 ≤ width blinker) as Hw by (simpl; lia).
  assert (0 ≤ it_y (mkIter 0 2) < width blinker) as Hy by (simpl; lia).
  split; [exact Hw|]. split; [exact Hy|].
  exact (iter_incr_decr_inverse blinker (mkIter 0 2) Hw Hy).
Defined.

Lemma iter_retreat_from_end_witness :
  1 ≤ height blinker ∧ 1 ≤ width blinker ∧
  Z.of_nat 3 < height blinker * width blinker ∧
  iter_decr blinker (end_ blinker) = mkIter 2 2 ∧
  iter_retreat blinker 4 (end_ blinker) = mkIter 1 2 ∧
  iter_retreat blinker 9 (end_ blinker) = begin_ blinker.
Proof.
  assert (1 ≤ height blinker) as Hh by (simpl; lia).
  assert (1 ≤ width blinker) as Hw by (simpl; lia).
  assert (Z.of_nat 3 < height blinker * width blinker) as Hk by (simpl; lia).
  split; [exact Hh|]. split; [exact Hw|]. split; [exact Hk|].
  destruct (iter_retreat_from_end blinker 3 Hh Hw Hk) as (Hlast & Hpos & _ & Hbegin).
  split; [exact Hlast|]. split; [exact Hpos | exact Hbegin].
Defined.


Lemma evolve_n_iterates_step_witness :
  valid blinker ∧
  (∃ l', evolve_n_lifetime TrivialDestructor 2 blinker = Ok l' ∧
         board l' = Nat.iter 2 (step_board 3 3) (board blinker) ∧
         generation l' = 2) ∧
  evolve_n_lifetime cell_destructor 2 blinker = Error UndefinedBehaviour.
Proof.
  split; [exact blinker_valid|].
  destruct (evolve_n_iterates_step 2 blinker blinker_valid)
    as ((l' & Hrun & _ & _ & _ & Hb & Hg & _) & Hub).
  split.
  - exists l'. split; [exact Hrun|]. split; [exact Hb | exact Hg].
  - apply Hub; [discriminate | simpl; lia | simpl; lia].
Defined.

Lemma evolve_all_checked_agrees_witness :
  (∀ c ns, Cells.ConwayCell_plus c ns = plus c ns) ∧
  evolve_all_checked TrivialDestructor Cells.ConwayCell_plus blinker
  = evolve_all_lifetime TrivialDestructor blinker ∧
  evolve_all_checked cell_destructor Cells.ConwayCell_plus blinker
  = evolve_all_lifetime cell_destructor blinker ∧
  evolve_all_checked TrivialDestructor Cells.ConwayCell_plus jagged_board
  ≠ Error UndefinedBehaviour.
Proof.
  assert (∀ c ns, Cells.ConwayCell_plus c ns = plus c ns) as Hplus
    by (intros c ns; reflexivity).
  split; [exact Hplus|]. split; [|split].
  - exact (proj2 (proj2 (evolve_all_checked_agrees TrivialDestructor
                           Cells.ConwayCell_plus blinker Hplus)) blinker_valid).
  - exact (proj2 (proj2 (evolve_all_checked_agrees cell_destructor
                           Cells.ConwayCell_plus blinker Hplus)) blinker_valid).
  - exact (proj1 (proj2 (evolve_all_checked_agrees TrivialDestructor
                           Cells.ConwayCell_plus jagged_board Hplus)) eq_refl).
Defined.

Lemma evolve_all_empty_interior_witness :
  valid empty_board ∧ (height empty_board = 0 ∨ width empty_board = 0) ∧
  evolve_all empty_board = Ok (mkLife 0 0 (board empty_board) 1 0).
Proof.
  assert (height empty_board = 0 ∨ width empty_board = 0) as Hz by (left; reflexivity).
  split; [exact empty_board_valid|]. split; [exact Hz|].
  exact (evolve_all_empty_interior empty_board empty_board_valid Hz).
Defined.

Lemma population_within_interior_witness :
  valid blinker ∧
  ∃ l', evolve_all blinker = Ok l' ∧ 0 ≤ population l' ≤ height blinker * width blinker.
Proof.
  split; [exact blinker_valid|].
  destruct (evolve_all_spec blinker blinker_valid) as (l' & Hrun & _).
  exists l'. split; [exact Hrun|].
  exact (population_within_interior blinker l' blinker_valid Hrun).
Defined.

Lemma at_put_then_at_get_witness :
  valid blinker ∧ 0 ≤ 1 < height blinker ∧ 0 ≤ 1 < width blinker ∧
  ∃ l', at_put blinker 1 1 conway_dead = Ok l' ∧
        at_get l' 1 1 = Ok conway_dead ∧ population l' = population blinker.
Proof.
  assert (0 ≤ 1 < height blinker) as Hx by (simpl; lia).
  assert (0 ≤ 1 < width blinker) as Hy by (simpl; lia).
  split; [exact blinker_valid|]. split; [exact Hx|]. split; [exact Hy|].
  destruct (at_put_then_at_get blinker 1 1 conway_dead blinker_valid Hx Hy)
    as (l' & Hrun & _ & _ & _ & _ & Hp & Hget & _).
  exists l'. split; [exact Hrun|]. split; [exact Hget | exact Hp].
Defined.


Lemma print_writes_interior_witness :
  valid blinker ∧
  print conway_example_show blinker
  = Ok (print_header blinker ++
        concat ((λ row, concat (conway_example_show <$> row) ++ [newline])
                  <$> interior_rows blinker) ++ [newline]).
Proof.
  split; [exact blinker_valid|].
  exact (print_writes_interior conway_example_show blinker blinker_valid).
Defined.




Lemma neighbor_halves_permute_documented_witness :
  0 ≤ 0 < 3 ∧ 0 ≤ 0 < 3 ∧ Z.of_nat (length (board blinker)) = (3 + 2) * (3 + 2) ∧
  NoDup (phys 3 0 0 :: neighbor_indices 3 0 0) ∧
  ∃ ns, read_neighbors (board blinker) 3 0 0 = Ok ns ∧
        take 4 ns ≡ₚ cell_of (board blinker)
                       <$> (offset_index 3 0 0 <$> take 4 documented_order).
Proof.
  assert (0 ≤ 0 < 3) as Hx by lia.
  assert (Z.of_nat (length (board blinker)) = (3 + 2) * (3 + 2)) as Hlen
    by reflexivity.
  split; [exact Hx|]. split; [exact Hx|]. split; [exact Hlen|].
  destruct (neighbor_halves_permute_documented (board blinker) 3 3 0 0 Hx Hx Hlen)
    as (Hnd & ns & Hns & Hfirst & _).
  split; [exact Hnd|]. exists ns. split; [exact Hns | exact Hfirst].
Defined.
